(** * Segment phase-offset estimation and mosaicking

    A shallow embedding of [insar_analysis/dhorse_merge_segments.py]:
    the boundary estimator [estimate_boundary_n], the cumulative
    propagation [estimate_segment_offsets], the two readers, the writer
    [write_isce_image] and the body of the script's loop over
    polarisations and pairs.

    Modelling conventions.
    - A Python exception is a value of [Py.exn]; a computation that may
      raise returns [Py.result A]; the script, which also writes files,
      runs in a state-and-error monad over the log of file-system
      events.
    - A NumPy element is an exact rational or NaN ([Np.scalar]): the
      rounding of machine arithmetic is not modelled, infinities do not
      occur.  Python float literals ([np.pi], [0.7], [1e-3], ...)
      denote the rational value of their binary64 representation.
    - A 2-D array is a record of its dtype, its column count and its
      list of rows; the dtype is a tag that NumPy's promotion rules
      propagate.
    - [print] calls are omitted; the file system accepts every write
      to a directory that has a name. *)

From Stdlib Require Import Ascii String DecimalString.
From Stdlib Require Import ZArith List Bool Lia Arith.
From Stdlib Require Import QArith Qcanon Qround Qabs Qcabs.
From Stdlib Require Import Lqa.
From Stdlib Require Sorted.
Import ListNotations.

Set Implicit Arguments.

(* ================================================================== *)
(** ** Python: exceptions, the error monad, slices *)

Module Py.

Inductive exn : Type :=
| IndexError (msg : string)
| ValueError (msg : string)
| TypeError (msg : string)
| AttributeError (msg : string)
| UnboundLocalError (msg : string)
| FileNotFoundError (msg : string)
| Unsupported (msg : string).
(** [Unsupported] is not a Python exception: the model returns it
    where an input leaves the modelled fragment of NumPy (a
    multi-band dataset handed to the single-band reader). *)

Definition result (A : Type) : Type := (exn + A)%type.

Definition ret {A} (x : A) : result A := inr x.
Definition raise {A} (e : exn) : result A := inl e.

Definition bind {A B} (m : result A) (k : A -> result B) : result B :=
  match m with
  | inl e => inl e
  | inr x => k x
  end.

(** [l[i]] for a non-negative literal index. *)
Definition getitem {A} (l : list A) (i : nat) : result A :=
  match nth_error l i with
  | Some x => ret x
  | None => raise (IndexError "list index out of range")
  end.

(** A slice bound clipped to [0 .. len], negative bounds counting
    from the end. *)
Definition clip (len : nat) (i : Z) : nat :=
  if (i <? 0)%Z then Z.to_nat (Z.max 0 (i + Z.of_nat len))
  else Nat.min (Z.to_nat i) len.

(** [l[i:]] and [l[:i]]. *)
Definition slice_from {A} (i : Z) (l : list A) : list A :=
  skipn (clip (length l) i) l.
Definition slice_to {A} (i : Z) (l : list A) : list A :=
  firstn (clip (length l) i) l.

(** [zip]. *)
Definition zip {A B} (la : list A) (lb : list B) : list (A * B) :=
  combine la lb.

(** [range(n)]. *)
Definition range (n : nat) : list nat := seq 0 n.

End Py.

Declare Scope py_scope.
Delimit Scope py_scope with py.
Notation "x <- m ;; k" := (Py.bind m (fun x => k))
  (at level 61, m at next level, right associativity) : py_scope.

(* ================================================================== *)
(** ** NumPy: scalars *)

Module Np.
Import Py.
Local Open Scope py_scope.

Inductive scalar : Type :=
| Num (q : Qc)
| NaN.

Definition of_Z (z : Z) : scalar := Num (Q2Qc (inject_Z z)).
Definition of_Q (q : Q) : scalar := Num (Q2Qc q).

Definition lift2 (f : Qc -> Qc -> Qc) (x y : scalar) : scalar :=
  match x, y with
  | Num a, Num b => Num (f a b)
  | _, _ => NaN
  end.

Definition add : scalar -> scalar -> scalar := lift2 Qcplus.
Definition sub : scalar -> scalar -> scalar := lift2 Qcminus.
Definition mul : scalar -> scalar -> scalar := lift2 Qcmult.

(** Division by zero gives NaN or an infinity in IEEE arithmetic; the
    divisors of the script are the non-zero constants [2*np.pi] and
    [2], so the case is mapped to NaN. *)
Definition div (x y : scalar) : scalar :=
  match x, y with
  | Num a, Num b => if Qc_eq_bool b 0 then NaN else Num (a / b)%Qc
  | _, _ => NaN
  end.

Definition abs (x : scalar) : scalar :=
  match x with
  | Num a => Num (Qcabs a)
  | NaN => NaN
  end.

Definition Qc_leb (a b : Qc) : bool :=
  match (a ?= b)%Qc with Gt => false | _ => true end.
Definition Qc_ltb (a b : Qc) : bool :=
  match (a ?= b)%Qc with Lt => true | _ => false end.

(** Comparisons with NaN are false. *)
Definition gt (x y : scalar) : bool :=
  match x, y with
  | Num a, Num b => Qc_ltb b a
  | _, _ => false
  end.
Definition le (x y : scalar) : bool :=
  match x, y with
  | Num a, Num b => Qc_leb a b
  | _, _ => false
  end.

Definition isnan (x : scalar) : bool :=
  match x with NaN => true | Num _ => false end.

(** The binary64 value of [np.pi]. *)
Definition pi : scalar := of_Q (884279719003555 # 281474976710656).

(** Round half to even, as [np.round] does. *)
Definition round_half_even (q : Qc) : Z :=
  let f := Qfloor q in
  match (q - Q2Qc (inject_Z f) ?= Q2Qc (1 # 2))%Qc with
  | Lt => f
  | Gt => (f + 1)%Z
  | Eq => if Z.even f then f else (f + 1)%Z
  end.

Definition round (x : scalar) : scalar :=
  match x with
  | Num q => of_Z (round_half_even q)
  | NaN => NaN
  end.

(** [int(x)] of a float: truncation toward zero; NaN raises. *)
Definition int (x : scalar) : result Z :=
  match x with
  | Num q => ret (if Qc_leb 0 q then Qfloor q else Qceiling q)
  | NaN => raise (ValueError "cannot convert float NaN to integer")
  end.

(* ---------------------------------------------------------------- *)
(** *** dtypes and their promotion *)

Inductive np_dtype : Type :=
| Bool_ | UInt8 | Int16 | Int32 | Float32 | Float64.

(** [np.result_type] on the dtypes above. *)
Definition result_type (a b : np_dtype) : np_dtype :=
  match a, b with
  | Bool_, x | x, Bool_ => x
  | Float64, _ | _, Float64 => Float64
  | Float32, Int32 | Int32, Float32 => Float64
  | Float32, _ | _, Float32 => Float32
  | Int32, _ | _, Int32 => Int32
  | Int16, _ | _, Int16 => Int16
  | UInt8, UInt8 => UInt8
  end.

(** The dtype of an array combined with a Python float. *)
Definition with_python_float (a : np_dtype) : np_dtype :=
  match a with
  | Float32 => Float32
  | _ => Float64
  end.

(* ---------------------------------------------------------------- *)
(** *** 2-D arrays *)

Record ndarray (A : Type) : Type := mk_ndarray {
  dtype : np_dtype;
  ncols : nat;
  rows : list (list A)
}.

Definition nrows {A} (a : ndarray A) : nat := length (rows a).

(** Every row has [ncols] elements. *)
Definition well_formed {A} (a : ndarray A) : Prop :=
  Forall (fun r => length r = ncols a) (rows a).

(** The elements in C order, as [a.ravel()]. *)
Definition ravel {A} (a : ndarray A) : list A := concat (rows a).

(** [a[-N:, :M]] and [a[:N, :M]]. *)
Definition last_rows_first_cols {A} (N M : Z) (a : ndarray A) : ndarray A :=
  {| dtype := dtype a;
     ncols := clip (ncols a) M;
     rows := map (slice_to M) (slice_from (- N) (rows a)) |}.
Definition first_rows_first_cols {A} (N M : Z) (a : ndarray A) : ndarray A :=
  {| dtype := dtype a;
     ncols := clip (ncols a) M;
     rows := map (slice_to M) (slice_to N (rows a)) |}.

(** An elementwise operation with a Python scalar. *)
Definition map_elements {A B} (dt : np_dtype) (f : A -> B) (a : ndarray A)
  : ndarray B :=
  {| dtype := dt; ncols := ncols a; rows := map (map f) (rows a) |}.

(** Broadcasting of one dimension. *)
Definition broadcast_dim (n m : nat) : result nat :=
  if n =? m then ret n
  else if n =? 1 then ret m
  else if m =? 1 then ret n
  else raise (ValueError "operands could not be broadcast together").

(** A dimension of extent one is repeated [n] times. *)
Definition stretch {A} (n : nat) (l : list A) : list A :=
  match l with
  | x :: nil => repeat x n
  | _ => l
  end.

Definition map2 {A B C} (f : A -> B -> C) (la : list A) (lb : list B)
  : list C :=
  map (fun p => f (fst p) (snd p)) (combine la lb).

(** An elementwise binary operation on two arrays. *)
Definition broadcast2 {A B C} (dt : np_dtype) (f : A -> B -> C)
    (a : ndarray A) (b : ndarray B) : result (ndarray C) :=
  nr <- broadcast_dim (nrows a) (nrows b) ;;
  nc <- broadcast_dim (ncols a) (ncols b) ;;
  ret {| dtype := dt;
         ncols := nc;
         rows := map2 (fun ra rb => map2 f (stretch nc ra) (stretch nc rb))
                      (stretch nr (rows a)) (stretch nr (rows b)) |}.

(** [a > x] for a Python float [x]. *)
Definition greater (a : ndarray scalar) (x : scalar) : ndarray bool :=
  map_elements Bool_ (fun v => gt v x) a.

(** [a & b] on boolean arrays. *)
Definition logical_and (a b : ndarray bool) : result (ndarray bool) :=
  broadcast2 Bool_ andb a b.

(** [a - b]; NumPy refuses to subtract booleans. *)
Definition subtract (a b : ndarray scalar) : result (ndarray scalar) :=
  match result_type (dtype a) (dtype b) with
  | Bool_ => raise (TypeError "numpy boolean subtract is not supported")
  | dt => broadcast2 dt sub a b
  end.

(** [a - x] for a Python float [x]. *)
Definition subtract_float (a : ndarray scalar) (x : scalar) : ndarray scalar :=
  map_elements (with_python_float (dtype a)) (fun v => sub v x) a.

(** [np.where(cond, a, x)] for a Python float [x]. *)
Definition where_ (cond : ndarray bool) (a : ndarray scalar) (x : scalar)
  : result (ndarray scalar) :=
  broadcast2 (with_python_float (dtype a))
             (fun (c : bool) (v : scalar) => if c then v else x) cond a.

(* ---------------------------------------------------------------- *)
(** *** Median ignoring NaN *)

Fixpoint insert (x : Qc) (l : list Qc) : list Qc :=
  match l with
  | [] => [x]
  | y :: l' => if Qc_leb x y then x :: l else y :: insert x l'
  end.

Fixpoint sort (l : list Qc) : list Qc :=
  match l with
  | [] => []
  | x :: l' => insert x (sort l')
  end.

(** The numbers of a list of scalars, NaN dropped. *)
Fixpoint numbers (l : list scalar) : list Qc :=
  match l with
  | [] => []
  | Num q :: l' => q :: numbers l'
  | NaN :: l' => numbers l'
  end.

(** The middle element of sorted data, or the mean of the two middle
    elements. *)
Definition median_sorted (l : list Qc) : Qc :=
  let n := length l in
  if Nat.even n
  then ((nth (n / 2 - 1) l 0 + nth (n / 2) l 0) / Q2Qc (inject_Z 2))%Qc
  else nth (n / 2) l 0%Qc.

(** [np.nanmedian(a)] over the flattened array; NaN when no element
    is a number. *)
Definition nanmedian (a : ndarray scalar) : scalar :=
  match numbers (ravel a) with
  | [] => NaN
  | l => Num (median_sorted (sort l))
  end.

(* ---------------------------------------------------------------- *)
(** *** Stacking *)

(** [np.vstack] of 2-D arrays: the rows of the arrays in list order;
    the column counts must agree. *)
Definition vstack {A} (arrs : list (ndarray A)) : result (ndarray A) :=
  match arrs with
  | [] => raise (ValueError "need at least one array to concatenate")
  | a :: rest =>
      if forallb (fun b => ncols b =? ncols a) rest
      then ret {| dtype := fold_left result_type (map (@dtype A) rest) (dtype a);
                  ncols := ncols a;
                  rows := concat (map (@rows A) arrs) |}
      else raise (ValueError
        "all the input array dimensions except for the concatenation axis must match exactly")
  end.

(** [np.isclose(a, y, atol=atol)] for a Python float [y], with the
    default [rtol=1e-5]. *)
Definition rtol_default : scalar :=
  of_Q (5902958103587057 # 590295810358705651712).

Definition isclose_scalar (atol x y : scalar) : bool :=
  le (abs (sub x y)) (add atol (mul rtol_default (abs y))).

Definition isclose (a : ndarray scalar) (y atol : scalar) : ndarray bool :=
  map_elements Bool_ (fun x => isclose_scalar atol x y) a.

(* ---------------------------------------------------------------- *)
(** *** 3-D arrays

    The shape is (number of planes, [nrows3], [ncols3]); the planes
    of a raster are its bands. *)

Record ndarray3 (A : Type) : Type := mk_ndarray3 {
  dtype3 : np_dtype;
  nrows3 : nat;
  ncols3 : nat;
  planes : list (list (list A))
}.

Definition nplanes {A} (a : ndarray3 A) : nat := length (planes a).

(** [np.stack([a, b])] of two 2-D arrays of one shape. *)
Definition stack2 {A} (a b : ndarray A) : result (ndarray3 A) :=
  if (nrows a =? nrows b) && (ncols a =? ncols b)
  then ret {| dtype3 := result_type (dtype a) (dtype b);
              nrows3 := nrows a;
              ncols3 := ncols a;
              planes := [rows a; rows b] |}
  else raise (ValueError "all input arrays must have the same shape").

(** [np.concatenate(arrs, axis=1)] of 3-D arrays: band by band, the
    rows of the arrays in list order. *)
Definition concatenate_axis1 {A} (arrs : list (ndarray3 A))
  : result (ndarray3 A) :=
  match arrs with
  | [] => raise (ValueError "need at least one array to concatenate")
  | a :: rest =>
      if forallb (fun b => (nplanes b =? nplanes a) && (ncols3 b =? ncols3 a)) rest
      then ret {| dtype3 := fold_left result_type (map (@dtype3 A) rest) (dtype3 a);
                  nrows3 := list_sum (map (@nrows3 A) arrs);
                  ncols3 := ncols3 a;
                  planes := map (fun j => concat (map (fun x => nth j (planes x) []) arrs))
                                (seq 0 (nplanes a)) |}
      else raise (ValueError
        "all the input array dimensions except for the concatenation axis must match exactly")
  end.

(** [np.transpose(a, (1, 0, 2))]: from (bands, rows, columns) to
    (rows, bands, columns). *)
Definition transpose_102 {A} (a : ndarray3 A) : ndarray3 A :=
  {| dtype3 := dtype3 a;
     nrows3 := nplanes a;
     ncols3 := ncols3 a;
     planes := map (fun i => map (fun b => nth i b []) (planes a))
                   (seq 0 (nrows3 a)) |}.

End Np.

(* ================================================================== *)
(** ** The numerical core of the script *)

Module Merge.
Import Py Np.
Local Open Scope py_scope.

(** [2*np.pi]. *)
Definition two_pi : scalar := mul (of_Z 2) pi.

(** The defaults [N=400, M=400, coh_thr=0.7]. *)
Definition N_default : Z := 400.
Definition M_default : Z := 400.
Definition coh_thr_default : scalar :=
  of_Q (3152519739159347 # 4503599627370496).

(** [mask = (coh_n > coh_thr) & (coh_s > coh_thr)] on the boundary
    slices. *)
Definition boundary_mask (coh_north coh_south : ndarray scalar)
    (N M : Z) (coh_thr : scalar) : result (ndarray bool) :=
  let coh_n := last_rows_first_cols N M coh_north in
  let coh_s := first_rows_first_cols N M coh_south in
  logical_and (greater coh_n coh_thr) (greater coh_s coh_thr).

(** The body of [estimate_boundary_n] up to
    [ratio = med / (2*np.pi)]. *)
Definition boundary_ratio
    (phi_north coh_north phi_south coh_south : ndarray scalar)
    (N M : Z) (coh_thr : scalar) : result scalar :=
  let phi_n := last_rows_first_cols N M phi_north in
  let phi_s := first_rows_first_cols N M phi_south in
  mask <- boundary_mask coh_north coh_south N M coh_thr ;;
  d <- subtract phi_n phi_s ;;
  diff <- where_ mask d NaN ;;
  let med := nanmedian diff in
  ret (div med two_pi).

Definition estimate_boundary_n
    (phi_north coh_north phi_south coh_south : ndarray scalar)
    (N M : Z) (coh_thr : scalar) : result Z :=
  ratio <- boundary_ratio phi_north coh_north phi_south coh_south
             N M coh_thr ;;
  n <- int (round ratio) ;;
  ret n.

Definition estimate_segment_offsets (phi_list coh_list : list (ndarray scalar))
  : result (list Z) :=
  let estimate pn cn ps cs :=
    estimate_boundary_n pn cn ps cs N_default M_default coh_thr_default in
  p0 <- getitem phi_list 0 ;; k0 <- getitem coh_list 0 ;;
  p1 <- getitem phi_list 1 ;; k1 <- getitem coh_list 1 ;;
  n12 <- estimate p0 k0 p1 k1 ;;
  p1 <- getitem phi_list 1 ;; k1 <- getitem coh_list 1 ;;
  p2 <- getitem phi_list 2 ;; k2 <- getitem coh_list 2 ;;
  n23 <- estimate p1 k1 p2 k2 ;;
  p2 <- getitem phi_list 2 ;; k2 <- getitem coh_list 2 ;;
  p3 <- getitem phi_list 3 ;; k3 <- getitem coh_list 3 ;;
  n34 <- estimate p2 k2 p3 k3 ;;
  let c1 := 0%Z in
  let c2 := (c1 - n12)%Z in
  let c3 := (c2 - n23)%Z in
  let c4 := (c3 - n34)%Z in
  ret [c1; c2; c3; c4].

(** [phi - ci * 2*np.pi]: the integer product [ci * 2] is formed
    first, then multiplied by the float [np.pi]. *)
Definition correct_phase (phi : ndarray scalar) (ci : Z) : ndarray scalar :=
  subtract_float phi (mul (of_Z (ci * 2)) pi).

(** [[phi - ci * 2*np.pi for phi, ci in zip(phi_list, c)]]. *)
Definition phi_corr (phi_list : list (ndarray scalar)) (c : list Z)
  : list (ndarray scalar) :=
  map (fun p => correct_phase (fst p) (snd p)) (zip phi_list c).

(** [np.vstack(phi_corr)]. *)
Definition mosaic_unw (phi_list : list (ndarray scalar)) (c : list Z)
  : result (ndarray scalar) :=
  vstack (phi_corr phi_list c).

(** [1e-3]. *)
Definition atol_mask : scalar :=
  of_Q (1152921504606847 # 1152921504606846976).

(** [np.where(np.isclose(mosaic_int_amp, 0.0, atol=1e-3), False, True)]. *)
Definition amplitude_mask (mosaic_int_amp : ndarray scalar) : ndarray bool :=
  map_elements Bool_ negb (isclose mosaic_int_amp (of_Z 0) atol_mask).

(** The two masked layers and their stack
    [np.stack([mosaic_amp_masked, mosaic_unw_masked])]. *)
Definition twoband_unw (mosaic_unw mosaic_int_amp : ndarray scalar)
  : result (ndarray3 scalar) :=
  let mask := amplitude_mask mosaic_int_amp in
  mosaic_unw_masked <- where_ mask mosaic_unw NaN ;;
  mosaic_amp_masked <- where_ mask mosaic_int_amp NaN ;;
  stack2 mosaic_amp_masked mosaic_unw_masked.

End Merge.

(* ================================================================== *)
(** ** Files: paths, the readers, the writer *)

Module Script.
Import Py Np Merge.
Local Open Scope string_scope.

(* ---------------------------------------------------------------- *)
(** *** Strings and paths *)

Definition upper_ascii (c : ascii) : ascii :=
  let n := nat_of_ascii c in
  if (97 <=? n)%nat && (n <=? 122)%nat then ascii_of_nat (n - 32) else c.
Definition lower_ascii (c : ascii) : ascii :=
  let n := nat_of_ascii c in
  if (65 <=? n)%nat && (n <=? 90)%nat then ascii_of_nat (n + 32) else c.

Fixpoint map_string (f : ascii -> ascii) (s : string) : string :=
  match s with
  | EmptyString => EmptyString
  | String c s' => String (f c) (map_string f s')
  end.

(** [s.upper()] and [s.lower()] on ASCII. *)
Definition upper : string -> string := map_string upper_ascii.
Definition lower : string -> string := map_string lower_ascii.

(** [str(n)] for a non-negative integer. *)
Definition str_of_nat (n : nat) : string :=
  DecimalString.NilEmpty.string_of_uint (Nat.to_uint n).

Fixpoint ends_with_slash (s : string) : bool :=
  match s with
  | EmptyString => false
  | String c EmptyString => Ascii.eqb c "/"
  | String _ s' => ends_with_slash s'
  end.

Definition starts_with_slash (s : string) : bool :=
  match s with
  | String c _ => Ascii.eqb c "/"
  | EmptyString => false
  end.

(** [os.path.join(a, b)] on POSIX. *)
Definition path_join (a b : string) : string :=
  if starts_with_slash b then b
  else if String.eqb a "" then b
  else if ends_with_slash a then a ++ b
  else a ++ "/" ++ b.

(** [os.path.join(a, b1, ..., bn)]. *)
Definition path_join_all (a : string) (bs : list string) : string :=
  fold_left path_join bs a.

(** [os.path.dirname(p)] on POSIX: the part before the last slash,
    without its trailing slashes unless it consists of slashes. *)
Fixpoint drop_while_not_slash (l : list ascii) : list ascii :=
  match l with
  | [] => []
  | c :: l' => if Ascii.eqb c "/" then l else drop_while_not_slash l'
  end.
Fixpoint drop_slashes (l : list ascii) : list ascii :=
  match l with
  | [] => []
  | c :: l' => if Ascii.eqb c "/" then drop_slashes l' else l
  end.
Definition dirname (p : string) : string :=
  let head := drop_while_not_slash (rev (list_ascii_of_string p)) in
  match drop_slashes head with
  | [] => string_of_list_ascii (rev head)
  | stripped => string_of_list_ascii (rev stripped)
  end.

(* ---------------------------------------------------------------- *)
(** *** The files that the script reads *)

(** A raster file as GDAL opens it: its bands share a dtype and a
    shape. *)
Record dataset : Type := mk_dataset {
  ds_dtype : np_dtype;
  ds_nrows : nat;
  ds_ncols : nat;
  ds_bands : list (list (list scalar))
}.

(** What the script can observe of the file system: the matches of a
    glob pattern, and the dataset at a path ([None] when [gdal.Open]
    returns [None]). *)
Record world : Type := mk_world {
  glob : string -> list string;
  gdal_open : string -> option dataset
}.

(** The directory of segment [seg] for a product type; the [else]
    branch of the source only prints, leaving [segment_path]
    unbound; joining the [pair] of a geometry call, [None], is never
    attempted. *)
Definition segment_path (stack_dir : string) (pair : option string)
    (product_type pol : string) (seg : nat) : result string :=
  let seg_dir := "s" ++ str_of_nat seg ++ "_" ++ pol in
  if String.eqb (lower product_type) "i" then
    match pair with
    | Some p => ret (path_join_all stack_dir [seg_dir; "Igrams"; p])
    | None => raise (TypeError
        "expected str, bytes or os.PathLike object, not NoneType")
    end
  else if String.eqb (lower product_type) "g" then
    ret (path_join_all stack_dir [seg_dir; "geom_reference"])
  else raise (UnboundLocalError
        "local variable 'segment_path' referenced before assignment").

(** [gdal.Open(glob.glob(os.path.join(segment_path, pattern))[0])]. *)
Definition open_first_match (w : world) (dir pattern : string)
  : result dataset :=
  let unw_path := glob w (path_join dir pattern) in
  Py.bind (getitem unw_path 0) (fun p =>
  match gdal_open w p with
  | Some ds => ret ds
  | None => raise (AttributeError
      "'NoneType' object has no attribute 'ReadAsArray'")
  end).

(** The loop [for s in range(nr_segments): ... seg_arr.append(arr)]. *)
Fixpoint for_segments {A} (body : nat -> result A) (ss : list nat)
    (seg_arr : list A) : result (list A) :=
  match ss with
  | [] => ret seg_arr
  | s :: ss' =>
      Py.bind (body s) (fun arr => for_segments body ss' (seg_arr ++ [arr]))
  end.

(** [ReadAsArray()[:, :]] for single-band products. *)
Definition read_single_band (ds : dataset) : result (ndarray scalar) :=
  match ds_bands ds with
  | b :: nil => ret {| dtype := ds_dtype ds; ncols := ds_ncols ds; rows := b |}
  | _ => raise (Unsupported "single-band reader on a multi-band dataset")
  end.

(** One pass of the loop of [populate_array_pattern], for
    [s] in [range(nr_segments)]. *)
Definition read_segment (w : world) (stack_dir : string)
    (pair : option string) (pattern product_type pol : string) (s : nat)
  : result (ndarray scalar) :=
  let seg := (s + 1)%nat in
  Py.bind (segment_path stack_dir pair product_type pol seg) (fun sp =>
  Py.bind (open_first_match w sp pattern) (fun ds =>
  read_single_band ds)).

Definition populate_array_pattern (w : world) (stack_dir : string)
    (pair : option string) (pattern product_type pol : string)
    (nr_segments : nat) : result (list (ndarray scalar)) :=
  for_segments (read_segment w stack_dir pair pattern product_type pol)
    (range nr_segments) [].

(** [a[band]] along the band axis; a negative index counts from the
    end; a single-band dataset is read as a 2-D array, which has no
    third axis. *)
Definition select_band (ds : dataset) (band : Z) : result (list (list scalar)) :=
  match ds_bands ds with
  | _ :: nil => raise (IndexError "too many indices for array")
  | bs =>
      let n := Z.of_nat (length bs) in
      let i := if (band <? 0)%Z then (band + n)%Z else band in
      if ((0 <=? i)%Z && (i <? n)%Z)%bool
      then match nth_error bs (Z.to_nat i) with
           | Some b => ret b
           | None => raise (IndexError "index out of bounds")
           end
      else raise (IndexError "index out of bounds")
  end.

(** [ReadAsArray()[band, :, :]] for an integer [band]. *)
Definition read_band (ds : dataset) (band : Z) : result (ndarray scalar) :=
  Py.bind (select_band ds band) (fun b =>
  ret {| dtype := ds_dtype ds; ncols := ds_ncols ds; rows := b |}).

Fixpoint select_bands (ds : dataset) (bands : list Z)
  : result (list (list (list scalar))) :=
  match bands with
  | [] => ret []
  | b :: bs =>
      Py.bind (select_band ds b) (fun x =>
      Py.bind (select_bands ds bs) (fun xs => ret (x :: xs)))
  end.

(** [ReadAsArray()[band, :, :]] for a list [band] of indices. *)
Definition read_bands (ds : dataset) (bands : list Z)
  : result (ndarray3 scalar) :=
  Py.bind (select_bands ds bands) (fun bs =>
  ret {| dtype3 := ds_dtype ds; nrows3 := ds_nrows ds;
         ncols3 := ds_ncols ds; planes := bs |}).

(** [populate_array_pattern_multiband] is called with an integer band
    and with a list of bands; the two uses are two functions here,
    each with its pass of the loop. *)
Definition read_segment_band (w : world) (stack_dir : string)
    (pair : option string) (pattern product_type : string) (band : Z)
    (pol : string) (s : nat) : result (ndarray scalar) :=
  let seg := (s + 1)%nat in
  Py.bind (segment_path stack_dir pair product_type pol seg) (fun sp =>
  Py.bind (open_first_match w sp pattern) (fun ds =>
  read_band ds band)).

Definition populate_array_pattern_multiband (w : world) (stack_dir : string)
    (pair : option string) (pattern product_type : string) (band : Z)
    (pol : string) (nr_segments : nat) : result (list (ndarray scalar)) :=
  for_segments
    (read_segment_band w stack_dir pair pattern product_type band pol)
    (range nr_segments) [].

Definition read_segment_bands (w : world) (stack_dir : string)
    (pair : option string) (pattern product_type : string) (band : list Z)
    (pol : string) (s : nat) : result (ndarray3 scalar) :=
  let seg := (s + 1)%nat in
  Py.bind (segment_path stack_dir pair product_type pol seg) (fun sp =>
  Py.bind (open_first_match w sp pattern) (fun ds =>
  read_bands ds band)).

Definition populate_array_pattern_multiband_list (w : world)
    (stack_dir : string) (pair : option string)
    (pattern product_type : string) (band : list Z)
    (pol : string) (nr_segments : nat) : result (list (ndarray3 scalar)) :=
  for_segments
    (read_segment_bands w stack_dir pair pattern product_type band pol)
    (range nr_segments) [].

(* ---------------------------------------------------------------- *)
(** *** The files that the script writes *)

(** The argument of [write_isce_image]: a 2-D array, a 3-D array, or
    an array of another number of dimensions. *)
Inductive array : Type :=
| Arr2 (a : ndarray scalar)
| Arr3 (a : ndarray3 scalar)
| ArrN (ndim : nat) (dt : np_dtype).

(** The bytes of a file written by [tofile]: the dtype of the array
    and its elements in C order. *)
Record raw_file : Type := mk_raw {
  raw_dtype : np_dtype;
  raw_values : list scalar
}.

(** The fields of the ISCE image object that the writer sets. *)
Record image : Type := mk_image {
  filename : string;
  width : nat;
  length_ : nat;
  bands : nat;
  scheme_ : string;
  dataType : string;
  accessMode : string
}.

Inductive event : Type :=
| MakeDirs (dir : string)
| ToFile (path : string) (contents : raw_file)
| RenderHdr (img : image)
| RenderVRT (img : image).

(** The script's monad: the log of file-system events so far, and a
    result or an exception; an exception keeps the log. *)
Definition M (A : Type) : Type := list event -> list event * result A.

Definition retM {A} (x : A) : M A := fun log => (log, inr x).
Definition bindM {A B} (m : M A) (k : A -> M B) : M B :=
  fun log =>
    match m log with
    | (log', inl e) => (log', inl e)
    | (log', inr x) => k x log'
    end.
Definition lift {A} (r : result A) : M A := fun log => (log, r).
Definition emit (e : event) : M unit := fun log => ((log ++ [e])%list, inr tt).

Declare Scope script_scope.
Delimit Scope script_scope with script.
Notation "x <- m ;; k" := (bindM m (fun x => k))
  (at level 61, m at next level, right associativity) : script_scope.
Notation "m ;;; k" := (bindM m (fun _ => k))
  (at level 61, right associativity) : script_scope.
Local Open Scope script_scope.

(** [os.makedirs(dir, exist_ok=True)]; the empty path is refused. *)
Definition makedirs (dir : string) : M unit :=
  if String.eqb dir "" then
    lift (raise (FileNotFoundError "No such file or directory: ''"))
  else emit (MakeDirs dir).

Fixpoint for_each {A} (l : list A) (body : A -> M unit) : M unit :=
  match l with
  | [] => retM tt
  | x :: l' => body x ;;; for_each l' body
  end.

Section Writer.

(** The value of a number after the cast to binary32; the rounding
    is not specified further. *)
Variable float32 : scalar -> scalar.

(** [a.astype(np.float32)]. *)
Definition astype_float32 (a : ndarray scalar) : ndarray scalar :=
  map_elements Float32 float32 a.
Definition astype_float32_3d (a : ndarray3 scalar) : ndarray3 scalar :=
  {| dtype3 := Float32; nrows3 := nrows3 a; ncols3 := ncols3 a;
     planes := map (map (map float32)) (planes a) |}.

(** [arr_out.tofile(outfile)]. *)
Definition tofile (arr_out : array) : raw_file :=
  match arr_out with
  | Arr2 a => {| raw_dtype := dtype a; raw_values := ravel a |}
  | Arr3 a => {| raw_dtype := dtype3 a;
                 raw_values := concat (concat (planes a)) |}
  | ArrN _ dt => {| raw_dtype := dt; raw_values := [] |}
  end.

(** The branches on [arr.ndim] and [scheme]:
    [(bands, length, width, arr_out)]. *)
Definition prepare_output (arr : array) (scheme : string)
  : result (nat * nat * nat * array) :=
  match arr with
  | Arr2 a => ret (1%nat, nrows a, ncols a, Arr2 (astype_float32 a))
  | Arr3 a =>
      if String.eqb (upper scheme) "BIL" then
        ret (nplanes a, nrows3 a, ncols3 a,
             Arr3 (astype_float32_3d (transpose_102 a)))
      else if String.eqb (upper scheme) "BSQ" then
        ret (nplanes a, nrows3 a, ncols3 a, Arr3 (astype_float32_3d a))
      else raise (ValueError "scheme must be 'BIL' or 'BSQ'")
  | ArrN _ _ => raise (ValueError "arr must be 2D or 3D")
  end.

Definition write_isce_image (outfile : string) (arr : array)
    (dtype scheme : string) : M unit :=
  out <- lift (prepare_output arr scheme) ;;
  let '(bands, length, width, arr_out) := out in
  makedirs (dirname outfile) ;;;
  emit (ToFile outfile (tofile arr_out)) ;;;
  let img := {| filename := outfile; width := width; length_ := length;
                bands := bands; scheme_ := upper scheme;
                dataType := dtype; accessMode := "read" |} in
  emit (RenderHdr img) ;;;
  emit (RenderVRT img).

(* -------------------------------------------------------------- *)
(** *** The script *)

Definition pairs : list string :=
  ["20170606_20170813"; "20170606_20171009"; "20170813_20171009"].
Definition pols : list string := ["hh"; "vv"; "hv"].
Definition nr_segments : nat := 4.
Definition flightline : string := "dhorse".
Definition dir_stack : string :=
  "/Data/jpe128/ResearchData/IFT/EarthObservation/Common/jakub/deadhorse/S1_SLC/Pband_InSAR/"
  ++ flightline ++ "_stack".

Variable w : world.

(** A single-band geometry product: read, stack, write. *)
Definition geometry_product (pol output_dir name : string) : M unit :=
  segs <- lift (populate_array_pattern w dir_stack None name "g" pol
                  nr_segments) ;;
  mosaic <- lift (vstack segs) ;;
  write_isce_image (path_join_all output_dir ["geom_reference"; name])
    (Arr2 mosaic) "FLOAT" "BIL".

(** The line-of-sight product, both bands, always read from the
    [hh] segments. *)
Definition los_product (output_dir : string) : M unit :=
  los <- lift (populate_array_pattern_multiband_list w dir_stack None
                 "los.rdr" "g" [0%Z; 1%Z] "hh" nr_segments) ;;
  mosaic_los <- lift (concatenate_axis1 los) ;;
  write_isce_image (path_join_all output_dir ["geom_reference"; "los.rdr"])
    (Arr3 mosaic_los) "FLOAT" "BIL".

(** The unwrapped-phase product of a pair; the coherence segments
    read here are used again for the coherence product. *)
Definition unw_product (pol output_dir pair : string)
  : M (list (ndarray scalar)) :=
  phi_list <- lift (populate_array_pattern_multiband w dir_stack
                      (Some pair) "filt_*.unw" "i" 1 pol nr_segments) ;;
  int_amp_list <- lift (populate_array_pattern_multiband w dir_stack
                      (Some pair) "filt_*.unw" "i" 0 pol nr_segments) ;;
  coh_list <- lift (populate_array_pattern w dir_stack (Some pair)
                      "filt_*.cor" "i" pol nr_segments) ;;
  c <- lift (estimate_segment_offsets phi_list coh_list) ;;
  mosaic_unw <- lift (mosaic_unw phi_list c) ;;
  mosaic_int_amp <- lift (vstack int_amp_list) ;;
  twoband_unw <- lift (twoband_unw mosaic_unw mosaic_int_amp) ;;
  write_isce_image
    (path_join_all output_dir
       ["Igrams"; pair; "filt_" ++ pair ++ "_snaphu.unw"])
    (Arr3 twoband_unw) "FLOAT" "BIL" ;;;
  retM coh_list.

Definition cor_product (output_dir pair : string)
    (coh_list : list (ndarray scalar)) : M unit :=
  mosaic_coh <- lift (vstack coh_list) ;;
  write_isce_image
    (path_join_all output_dir ["Igrams"; pair; "filt_" ++ pair ++ ".cor"])
    (Arr2 mosaic_coh) "FLOAT" "BIL".

Definition conncomp_product (pol output_dir pair : string) : M unit :=
  conncomp <- lift (populate_array_pattern w dir_stack (Some pair)
                      "filt_*.conncomp" "i" pol nr_segments) ;;
  mosaic_conncomp <- lift (vstack conncomp) ;;
  write_isce_image
    (path_join_all output_dir
       ["Igrams"; pair; "filt_" ++ pair ++ "_snaphu.unw.conncomp"])
    (Arr2 mosaic_conncomp) "FLOAT" "BIL".

(** The body of [for pair in pairs]. *)
Definition pair_body (pol output_dir pair : string) : M unit :=
  coh_list <- unw_product pol output_dir pair ;;
  cor_product output_dir pair coh_list ;;;
  conncomp_product pol output_dir pair.

(** The body of [for pol in pols]. *)
Definition pol_body (pol : string) : M unit :=
  let output_dir := path_join dir_stack ("mosaic_" ++ pol) in
  geometry_product pol output_dir "hgt.rdr" ;;;
  geometry_product pol output_dir "lat.rdr" ;;;
  geometry_product pol output_dir "lon.rdr" ;;;
  geometry_product pol output_dir "shadowMask.rdr" ;;;
  los_product output_dir ;;;
  for_each pairs (pair_body pol output_dir).

Definition main : M unit := for_each pols pol_body.

End Writer.

End Script.

(* ================================================================== *)
(** ** Vocabulary of the specification *)

Module Spec.
Import Py Np Merge Script.

(** The element of a list of rows, and of a 2-D array, at a row and
    a column. *)
Definition pixel_at {A} (rs : list (list A)) (r c : nat) : option A :=
  match nth_error rs r with
  | Some row => nth_error row c
  | None => None
  end.
Definition pixel {A} (a : ndarray A) (r c : nat) : option A :=
  pixel_at (rows a) r c.

(** The number [2*np.pi]. *)
Definition two_pi_q : Qc :=
  (Q2Qc (inject_Z 2) * Q2Qc (884279719003555 # 281474976710656))%Qc.

(** The absolute offsets as the specification defines them:
    [c(1) = 0], [c(i+1) = c(i) - n(i,i+1)], a fold from the left over
    the pairwise offsets. *)
Fixpoint propagate (c : Z) (ns : list Z) : list Z :=
  match ns with
  | [] => [c]
  | n :: ns' => c :: propagate (c - n) ns'
  end.
Definition absolute_offsets (ns : list Z) : list Z := propagate 0 ns.

(** The number [1e-3]. *)
Definition atol_q : Qc := Q2Qc (1152921504606847 # 1152921504606846976).

(** An amplitude whose magnitude is within the absolute tolerance
    1e-3 of zero. *)
Definition near_zero (a : scalar) : Prop :=
  match a with
  | Num q => (Qcabs q <= atol_q)%Qc
  | NaN => False
  end.

(** The events of one completed call of the writer: the directory,
    the raster, its header and its virtual-raster descriptor. *)
Definition image_events (outfile : string) (raw : raw_file) (img : image)
  : list event :=
  [MakeDirs (dirname outfile); ToFile outfile raw; RenderHdr img;
   RenderVRT img].


(** The pure part of the phase product: the two-band array handed to
    the writer, and the coherence segments. *)
Definition unw_array (w : world) (pol pair : string)
  : result (ndarray3 scalar * list (ndarray scalar)) :=
  (phi_list <- populate_array_pattern_multiband w dir_stack
                 (Some pair) "filt_*.unw" "i" 1 pol nr_segments ;;
   int_amp_list <- populate_array_pattern_multiband w dir_stack
                 (Some pair) "filt_*.unw" "i" 0 pol nr_segments ;;
   coh_list <- populate_array_pattern w dir_stack (Some pair)
                 "filt_*.cor" "i" pol nr_segments ;;
   c <- estimate_segment_offsets phi_list coh_list ;;
   mosaic_unw <- mosaic_unw phi_list c ;;
   mosaic_int_amp <- vstack int_amp_list ;;
   twoband <- twoband_unw mosaic_unw mosaic_int_amp ;;
   ret (twoband, coh_list))%py.

(** A computation that, whatever its outcome, only appends to the log
    events that together satisfy [P]. *)
Definition appends (P : list event -> Prop) {A} (m : M A) : Prop :=
  forall log log' r, m log = (log', r) ->
  exists evs, log' = log ++ evs /\ P evs.

(** An event that writes no raster, or one of 32-bit floats. *)
Definition float32_event (e : event) : Prop :=
  match e with
  | ToFile _ raw => raw_dtype raw = Float32
  | _ => True
  end.

(* ---------------------------------------------------------------- *)
(** *** Vocabulary of the further properties *)





(** Every plane of a 3-D array has [nrows3] rows of [ncols3]
    elements. *)
Definition well_formed3 {A} (a : ndarray3 A) : Prop :=
  Forall (fun p => length p = nrows3 a /\
                   Forall (fun r => length r = ncols3 a) p) (planes a).

Definition well_formed_array (arr : array) : Prop :=
  match arr with
  | Arr2 a => well_formed a
  | Arr3 a => well_formed3 a
  | ArrN _ _ => True
  end.

(** The element of a 3-D array at a plane, a row and a column. *)
Definition pixel3 {A} (a : ndarray3 A) (b i j : nat) : option A :=
  match nth_error (planes a) b with
  | Some p => pixel_at p i j
  | None => None
  end.

(** A list of groups of rows, every group of [h] rows of [w]
    elements. *)
Definition uniform_groups {A} (h w : nat) (G : list (list (list A)))
  : Prop :=
  Forall (fun g => length g = h /\ Forall (fun r => length r = w) g) G.

(** The paths of the rasters in a log, in the order of writing. *)
Definition written (log : list event) : list string :=
  flat_map (fun e => match e with ToFile p _ => p :: nil | _ => nil end)
           log.

(** The rasters of a run, in the order of the script: for each
    polarisation the five geometry layers, then for each pair the
    phase, the coherence and the connected components. *)
Definition geometry_outputs (output_dir : string) : list string :=
  map (fun name => path_join_all output_dir ["geom_reference"%string; name])
      ["hgt.rdr"; "lat.rdr"; "lon.rdr"; "shadowMask.rdr"; "los.rdr"]%string.

Definition pair_outputs (output_dir pair : string) : list string :=
  [path_join_all output_dir
     ["Igrams"; pair; "filt_" ++ pair ++ "_snaphu.unw"]%string;
   path_join_all output_dir
     ["Igrams"; pair; "filt_" ++ pair ++ ".cor"]%string;
   path_join_all output_dir
     ["Igrams"; pair; "filt_" ++ pair ++ "_snaphu.unw.conncomp"]%string].

Definition pol_outputs (pol : string) : list string :=
  let output_dir := path_join dir_stack ("mosaic_" ++ pol)%string in
  geometry_outputs output_dir ++ flat_map (pair_outputs output_dir) pairs.

Definition expected_outputs : list string := flat_map pol_outputs pols.

(** A computation that writes the rasters [paths] in this order when
    it returns, and a proper initial part of them when it raises. *)
Definition writes_in_order {A} (m : M A) (paths : list string) : Prop :=
  forall log log' r, m log = (log', r) ->
  match r with
  | inr _ => written log' = written log ++ paths
  | inl _ => exists k, (k < length paths)%nat /\
                       written log' = written log ++ firstn k paths
  end.

End Spec.

(* ================================================================== *)
(** ** Concrete rasters *)

Module Examples.
Import Py Np Merge Script.

Definition raster (dt : np_dtype) (l : list (list Q)) : ndarray scalar :=
  {| dtype := dt;
     ncols := match l with r :: _ => length r | [] => 0 end;
     rows := map (map of_Q) l |}.

Local Close Scope Qc_scope.
Local Open Scope Q_scope.

(** The rational [2*np.pi]. *)
Definition tp : Q := 884279719003555 # 140737488355328.

(** Two adjacent segments of three rows; over the two boundary rows
    the upper phase exceeds the lower one by one cycle. *)
Definition phi_upper : ndarray scalar :=
  raster Float64 [[100; 100]; [tp + (1 # 4); tp - (1 # 2)]; [tp; tp + 3]].
Definition phi_lower : ndarray scalar :=
  raster Float64 [[1 # 4; - (1 # 2)]; [0; 3]; [9; 9]].
Definition coh_upper : ndarray scalar :=
  raster Float32 [[1 # 8; 1 # 8]; [7 # 8; 3 # 4]; [15 # 16; 3 # 4]].
Definition coh_lower : ndarray scalar :=
  raster Float32 [[3 # 4; 7 # 8]; [23 # 32; 1]; [0; 0]].

(** Coherence below the threshold 0.7 everywhere. *)
Definition coh_poor : ndarray scalar :=
  raster Float32 [[1 # 2; 5 # 8]; [0; 11 # 16]; [1 # 4; 1 # 2]].

(** Segments of one pixel with the pairwise offsets 1, -2 and 0. *)
Definition seg1 : ndarray scalar := raster Float64 [[tp]].
Definition seg2 : ndarray scalar := raster Float64 [[0]].
Definition seg3 : ndarray scalar := raster Float64 [[2 * tp]].
Definition seg4 : ndarray scalar := raster Float64 [[2 * tp]].
Definition coh1 : ndarray scalar := raster Float32 [[1]].


(** A stack in which every pattern matches one file; the files
    [*.unw] and [los.rdr] have two bands, the others one; every
    raster has one row of two pixels. *)
Definition ends_with (suffix s : string) : bool :=
  let n := String.length suffix in
  let m := String.length s in
  (n <=? m)%nat && String.eqb (substring (m - n) n s) suffix.

Definition band_of (l : list Q) : list (list scalar) := [map of_Q l].

Definition one_band (dt : np_dtype) (l : list Q) : dataset :=
  {| ds_dtype := dt; ds_nrows := 1; ds_ncols := 2;
     ds_bands := [band_of l] |}.
Definition two_bands (dt : np_dtype) (l0 l1 : list Q) : dataset :=
  {| ds_dtype := dt; ds_nrows := 1; ds_ncols := 2;
     ds_bands := [band_of l0; band_of l1] |}.

Definition files (coherence : Q) (path : string) : option dataset :=
  if ends_with ".unw" path then Some (two_bands Float32 [1; 0] [3; 4])
  else if ends_with "los.rdr" path then Some (two_bands Float32 [30; 31] [90; 91])
  else if ends_with ".cor" path then Some (one_band Float32 [coherence; coherence])
  else if ends_with ".conncomp" path then Some (one_band UInt8 [1; 2])
  else if ends_with "shadowMask.rdr" path then Some (one_band UInt8 [0; 1])
  else Some (one_band Float64 [5; 6]).

Definition stack_coherent : world :=
  {| glob := fun p => [p]; gdal_open := files (7 # 8) |}.
Definition stack_incoherent : world :=
  {| glob := fun p => [p]; gdal_open := files (1 # 2) |}.

(** The cast to binary32 as the identity, for rasters whose values
    are binary32 numbers. *)
Definition exact_cast (v : scalar) : scalar := v.


(** An upper segment whose boundary rows are one cycle above those of
    [phi_lower] at three pixels of four. *)
Definition phi_outlier : ndarray scalar :=
  raster Float64 [[100; 100]; [tp + (1 # 4); tp - (1 # 2)]; [tp; 50]].

(** A 3-D array of two bands of two rows of three elements. *)
Definition two_band_array : ndarray3 scalar :=
  {| dtype3 := Float64; nrows3 := 2; ncols3 := 3;
     planes := [map (map of_Q) [[11; 12; 13]; [14; 15; 16]];
                map (map of_Q) [[21; 22; 23]; [24; 25; 26]]] |}.

End Examples.

(* ================================================================== *)
(** * Properties *)

(** ** Arithmetic of scalars *)

Module ScalarFacts.
Import Py Np Merge Spec.


Lemma Qfloor_inject (z : Z) : Qfloor (Q2Qc (inject_Z z)) = z.
Proof.
  unfold Q2Qc. cbn [this].
  rewrite (Qfloor_comp _ _ (Qred_correct (inject_Z z))). apply Qfloor_Z.
Qed.

Lemma Qceiling_inject (z : Z) : Qceiling (Q2Qc (inject_Z z)) = z.
Proof.
  unfold Q2Qc. cbn [this].
  rewrite (Qceiling_comp _ _ (Qred_correct (inject_Z z))). apply Qceiling_Z.
Qed.

Lemma Qc_minus_self (q : Qc) : (q - q = 0)%Qc.
Proof. ring. Qed.

(** Rounding leaves an integer where it is. *)
Lemma round_half_even_inject (z : Z) :
  round_half_even (Q2Qc (inject_Z z)) = z.
Proof.
  unfold round_half_even. rewrite Qfloor_inject, Qc_minus_self.
  reflexivity.
Qed.

(** [int] of an integral float is that integer. *)
Lemma int_of_Z (z : Z) : int (of_Z z) = inr z.
Proof.
  unfold int, of_Z, ret.
  destruct (Qc_leb 0 (Q2Qc (inject_Z z)));
    [rewrite Qfloor_inject | rewrite Qceiling_inject]; reflexivity.
Qed.

Lemma int_round (q : Qc) : int (round (Num q)) = inr (round_half_even q).
Proof. apply int_of_Z. Qed.

(** [2*np.pi] is a non-zero number. *)
Lemma two_pi_Num : two_pi = Num two_pi_q.
Proof. reflexivity. Qed.

Lemma Qc_eq_bool_false (x y : Qc) : Qc_eq_bool x y = false -> x <> y.
Proof.
  intros H E. subst y. unfold Qc_eq_bool in H.
  destruct (Qc_eq_dec x x); [discriminate | contradiction].
Qed.

Lemma two_pi_q_nonzero : two_pi_q <> 0%Qc.
Proof. apply Qc_eq_bool_false. vm_compute. reflexivity. Qed.

Lemma two_pi_q_eqb : Qc_eq_bool two_pi_q 0 = false.
Proof. vm_compute. reflexivity. Qed.

(** A whole multiple of 2 pi divided by 2 pi. *)
Lemma div_multiple_two_pi (n : Z) :
  div (mul (of_Z n) two_pi) two_pi = of_Z n.
Proof.
  rewrite two_pi_Num. unfold of_Z. cbn [mul lift2 div].
  rewrite two_pi_q_eqb. f_equal.
  apply Qcdiv_mult_l, two_pi_q_nonzero.
Qed.


Lemma sub_zero_correction (x : scalar) : sub x (mul (of_Z (0 * 2)) pi) = x.
Proof.
  destruct x as [q|]; [|reflexivity].
  unfold of_Z, pi, of_Q. cbn [mul sub lift2 Z.mul]. f_equal.
  change (Q2Qc (inject_Z 0)) with 0%Qc. ring.
Qed.

Lemma mean_of_equal (d : Qc) : ((d + d) / Q2Qc (inject_Z 2) = d)%Qc.
Proof.
  replace (Q2Qc (inject_Z 2)) with (1 + 1)%Qc
    by (apply Qc_is_canon; reflexivity).
  field. apply Qc_eq_bool_false. vm_compute. reflexivity.
Qed.

End ScalarFacts.

(* ================================================================== *)
(** ** Lists and arrays *)

Module ArrayFacts.
Import Py Np Spec.



Lemma map2_nth_error_inv {A B C} (f : A -> B -> C) la lb i z :
  nth_error (map2 f la lb) i = Some z ->
  exists a b, nth_error la i = Some a /\ nth_error lb i = Some b /\ z = f a b.
Proof.
  revert lb i. induction la as [|x la IH]; intros [|y lb] [|i] H;
    try discriminate; cbn in *.
  - inversion H. now exists x, y.
  - now apply IH.
Qed.

(** A property of the left elements carries over to the results. *)
Lemma map2_Forall_l {A B C} (P : A -> Prop) (Q : C -> Prop)
    (f : A -> B -> C) la lb :
  (forall a b, P a -> Q (f a b)) ->
  Forall P la -> Forall Q (map2 f la lb).
Proof.
  intros Hf Hla. revert lb.
  induction Hla as [|x la Hx _ IH]; intros [|y lb]; cbn; try constructor.
  - now apply Hf.
  - apply IH.
Qed.


Lemma map2_ext_Forall2 {A B C} (R : A -> B -> Prop) (f g : A -> B -> C) la lb :
  (forall a b, R a b -> f a b = g a b) ->
  Forall2 R la lb -> map2 f la lb = map2 g la lb.
Proof.
  intros Hf H. induction H; cbn; [reflexivity|].
  unfold map2 in IHForall2. now rewrite Hf, IHForall2.
Qed.

Lemma forallb_map {A B} (g : A -> B) (p : B -> bool) l :
  forallb p (map g l) = forallb (fun x => p (g x)) l.
Proof. induction l as [|x l IH]; cbn; [reflexivity | now rewrite IH]. Qed.

Lemma Forall_repeat {A} (P : A -> Prop) x n : P x -> Forall P (repeat x n).
Proof. intros H. induction n; cbn; constructor; auto. Qed.

Lemma stretch_Forall {A} (P : A -> Prop) n l :
  Forall P l -> Forall P (stretch n l).
Proof.
  intros H. destruct l as [|x [|y l]]; cbn; auto.
  apply Forall_repeat. now inversion H.
Qed.










(** The rows of a stack are the rows of its arrays, in list order. *)
Lemma vstack_rows {A} (arrs : list (ndarray A)) m :
  vstack arrs = inr m -> rows m = concat (map (@rows A) arrs).
Proof.
  unfold vstack. destruct arrs as [|a rest]; [discriminate|].
  destruct (forallb _ rest); [|discriminate].
  intros H. inversion H. reflexivity.
Qed.

Lemma vstack_ncols {A} (arrs : list (ndarray A)) m :
  vstack arrs = inr m -> Forall (fun a => ncols a = ncols m) arrs.
Proof.
  unfold vstack. destruct arrs as [|a rest]; [discriminate|].
  destruct (forallb _ rest) eqn:E; [|discriminate].
  intros H. inversion H. cbn. constructor; [reflexivity|].
  rewrite forallb_forall in E. apply Forall_forall. intros b Hb.
  now apply Nat.eqb_eq, E.
Qed.



Lemma insert_length x l : length (insert x l) = S (length l).
Proof.
  induction l as [|y l IH]; cbn; [reflexivity|].
  destruct (Qc_leb x y); cbn; now rewrite ?IH.
Qed.

Lemma sort_length l : length (sort l) = length l.
Proof.
  induction l as [|x l IH]; cbn; [reflexivity|].
  now rewrite insert_length, IH.
Qed.



(** The numbers of a list of NaN. *)
Lemma numbers_all_NaN l : Forall (eq NaN) l -> numbers l = [].
Proof.
  intros H. induction H as [|x l Hx _ IH]; [reflexivity|].
  subst x. exact IH.
Qed.


Lemma Forall_concat {A} (P : A -> Prop) ll :
  Forall (Forall P) ll -> Forall P (concat ll).
Proof.
  intros H. induction H; cbn; [constructor|]. now apply Forall_app.
Qed.

End ArrayFacts.

(* ================================================================== *)
(** ** Elementwise operations on arrays of one shape *)

Module BroadcastFacts.
Import Py Np Spec ArrayFacts.




Lemma map_elements_wf {A B} dt (f : A -> B) a :
  well_formed a -> well_formed (map_elements dt f a).
Proof.
  unfold well_formed, map_elements. cbn. intros H. apply Forall_map.
  eapply Forall_impl; [|exact H]. cbn. intros r Hr.
  now rewrite length_map.
Qed.





End BroadcastFacts.

(* ================================================================== *)
(** ** The boundary estimator *)

Module EstimatorFacts.
Import Py Np Merge Spec ArrayFacts ScalarFacts BroadcastFacts.


(** The median of an array of NaN. *)
Lemma nanmedian_all_NaN (a : ndarray scalar) :
  Forall (Forall (eq NaN)) (rows a) -> nanmedian a = NaN.
Proof.
  intros H. unfold nanmedian.
  now rewrite numbers_all_NaN by (now apply Forall_concat).
Qed.

(** A mask that is false everywhere leaves only NaN. *)
Lemma where_all_false mask d diff :
  Forall (Forall (eq false)) (rows mask) ->
  where_ mask d NaN = inr diff ->
  Forall (Forall (eq NaN)) (rows diff).
Proof.
  intros Hm. unfold where_, broadcast2.
  destruct (broadcast_dim (nrows mask) (nrows d)) as [e|nr]; [discriminate|].
  destruct (broadcast_dim (ncols mask) (ncols d)) as [e|nc]; [discriminate|].
  cbn [Py.bind ret]. intros H. inversion H. cbn [rows].
  apply map2_Forall_l with (P := Forall (eq false)).
  - intros ra rb Hra.
    apply map2_Forall_l with (P := eq false); [|now apply stretch_Forall].
    now intros c v <-.
  - now apply stretch_Forall.
Qed.

End EstimatorFacts.

(* ================================================================== *)
(** ** The script's monad, the readers and the writer *)

Module ScriptFacts.
Import Py Np Merge Script Spec.
Local Open Scope script_scope.

Lemma bind_lift {A B} (r : result A) (k : A -> M B) log :
  bindM (lift r) k log =
  match r with
  | inl e => (log, inl e)
  | inr x => k x log
  end.
Proof. unfold bindM, lift. now destruct r. Qed.

(** The loop over the segments appends one array for each segment,
    in the order of the segments. *)
Lemma for_segments_spec {A} (body : nat -> result A) ss acc l :
  for_segments body ss acc = inr l ->
  exists l', l = acc ++ l' /\ Forall2 (fun s a => body s = inr a) ss l'.
Proof.
  revert acc. induction ss as [|s ss IH]; intros acc; cbn.
  - intros [= <-]. exists []. split; [now rewrite app_nil_r | constructor].
  - destruct (body s) as [e|a] eqn:Es; cbn; [discriminate|].
    intros H. destruct (IH _ H) as (l' & -> & Hl').
    exists (a :: l'). split; [now rewrite <- app_assoc|].
    now constructor.
Qed.

Lemma for_segments_in_order {A} (body : nat -> result A) n l :
  for_segments body (range n) [] = inr l ->
  Forall2 (fun s a => body s = inr a) (range n) l.
Proof.
  intros H. destruct (for_segments_spec _ _ _ H) as (l' & -> & Hl').
  exact Hl'.
Qed.

(** The writer either raises before it touches the file system, or
    writes one complete image. *)
Lemma write_isce_image_run float32 outfile arr dtype scheme log :
  write_isce_image float32 outfile arr dtype scheme log =
  match prepare_output float32 arr scheme with
  | inl e => (log, inl e)
  | inr (bands, length, width, arr_out) =>
      if String.eqb (dirname outfile) ""
      then (log, inl (FileNotFoundError "No such file or directory: ''"))
      else
        (log ++ image_events outfile (tofile arr_out)
                  {| filename := outfile; width := width;
                     length_ := length; bands := bands;
                     scheme_ := upper scheme;
                     dataType := dtype; accessMode := "read" |},
         inr tt)
  end.
Proof.
  unfold write_isce_image. rewrite bind_lift.
  destruct (prepare_output float32 arr scheme) as [e|[[[b l] wd] out]];
    [reflexivity|].
  unfold makedirs. destruct (String.eqb (dirname outfile) "");
    [reflexivity|].
  unfold bindM, emit, image_events. cbn.
  now rewrite <- !app_assoc.
Qed.

(** Every branch of the writer casts to binary32. *)
Lemma prepare_output_float32 float32 arr scheme b l wd arr_out :
  prepare_output float32 arr scheme = inr (b, l, wd, arr_out) ->
  raw_dtype (tofile arr_out) = Float32.
Proof.
  unfold prepare_output. destruct arr as [a|a|n dt].
  - intros [= <- <- <- <-]. reflexivity.
  - destruct (String.eqb (upper scheme) "BIL").
    + intros [= <- <- <- <-]. reflexivity.
    + destruct (String.eqb (upper scheme) "BSQ"); [|discriminate].
      intros [= <- <- <- <-]. reflexivity.
  - discriminate.
Qed.


Lemma write_isce_image_success float32 outfile arr dtype scheme log log' :
  write_isce_image float32 outfile arr dtype scheme log = (log', inr tt) ->
  exists bands length width arr_out,
    prepare_output float32 arr scheme = inr (bands, length, width, arr_out) /\
    log' = log ++ image_events outfile (tofile arr_out)
                    {| filename := outfile; width := width;
                       length_ := length; bands := bands;
                       scheme_ := upper scheme; dataType := dtype;
                       accessMode := "read" |}.
Proof.
  rewrite write_isce_image_run.
  destruct (prepare_output float32 arr scheme) as [e'|[[[b l] wd] out]];
    [discriminate|].
  destruct (String.eqb (dirname outfile) ""); [discriminate|].
  intros [= <-]. now exists b, l, wd, out.
Qed.

(* ---------------------------------------------------------------- *)
(** *** Computations that only append events of some kind *)

Section Appends.
Variable P : list event -> Prop.
Hypothesis P_nil : P [].
Hypothesis P_app : forall a b, P a -> P b -> P (a ++ b).

Lemma appends_lift {A} (r : result A) : appends P (lift r).
Proof.
  intros log log' r' [= <- _]. exists []. now rewrite app_nil_r.
Qed.

Lemma appends_ret {A} (x : A) : appends P (retM x).
Proof.
  intros log log' r' [= <- _]. exists []. now rewrite app_nil_r.
Qed.

Lemma appends_bind {A B} (m : M A) (k : A -> M B) :
  appends P m -> (forall x, appends P (k x)) -> appends P (bindM m k).
Proof.
  intros Hm Hk log log' r. unfold bindM.
  destruct (m log) as [log1 [e|x]] eqn:E.
  - intros [= <- _]. now apply Hm in E.
  - intros H. apply Hm in E. apply Hk in H.
    destruct E as (evs1 & -> & P1). destruct H as (evs2 & -> & P2).
    exists (evs1 ++ evs2). split; [now rewrite app_assoc | auto].
Qed.

Lemma appends_for_each {A} (l : list A) (body : A -> M unit) :
  (forall x, appends P (body x)) -> appends P (for_each l body).
Proof.
  intros Hb. induction l as [|x l IH]; cbn.
  - apply appends_ret.
  - apply appends_bind; auto.
Qed.

(** The script, given that the writer only appends such events. *)
Hypothesis P_write : forall float32 outfile arr dtype scheme,
    appends P (write_isce_image float32 outfile arr dtype scheme).

Lemma appends_geometry_product float32 w pol output_dir name :
  appends P (geometry_product float32 w pol output_dir name).
Proof.
  unfold geometry_product.
  do 2 (apply appends_bind; [apply appends_lift | intros ?]).
  apply P_write.
Qed.

Lemma appends_los_product float32 w output_dir :
  appends P (los_product float32 w output_dir).
Proof.
  unfold los_product.
  do 2 (apply appends_bind; [apply appends_lift | intros ?]).
  apply P_write.
Qed.

Lemma appends_unw_product float32 w pol output_dir pair :
  appends P (unw_product float32 w pol output_dir pair).
Proof.
  unfold unw_product.
  do 7 (apply appends_bind; [apply appends_lift | intros ?]).
  apply appends_bind; [apply P_write | intros _; apply appends_ret].
Qed.

Lemma appends_cor_product float32 output_dir pair coh_list :
  appends P (cor_product float32 output_dir pair coh_list).
Proof.
  unfold cor_product.
  do 1 (apply appends_bind; [apply appends_lift | intros ?]).
  apply P_write.
Qed.

Lemma appends_conncomp_product float32 w pol output_dir pair :
  appends P (conncomp_product float32 w pol output_dir pair).
Proof.
  unfold conncomp_product.
  do 2 (apply appends_bind; [apply appends_lift | intros ?]).
  apply P_write.
Qed.

Lemma appends_main float32 w : appends P (main float32 w).
Proof.
  unfold main. apply appends_for_each. intros pol. unfold pol_body.
  repeat (apply appends_bind;
          [first [apply appends_geometry_product
                 | apply appends_los_product] | intros _]).
  apply appends_for_each. intros pair. unfold pair_body.
  apply appends_bind; [apply appends_unw_product | intros coh_list].
  apply appends_bind; [apply appends_cor_product | intros _].
  apply appends_conncomp_product.
Qed.

End Appends.



Lemma write_appends_float32 float32 outfile arr dtype scheme :
  appends (Forall float32_event)
          (write_isce_image float32 outfile arr dtype scheme).
Proof.
  intros log log' r. rewrite write_isce_image_run.
  destruct (prepare_output float32 arr scheme)
    as [e|[[[b l] wd] out]] eqn:E;
    [|destruct (String.eqb (dirname outfile) "")].
  - intros [= <- _]. exists []. split; [now rewrite app_nil_r | constructor].
  - intros [= <- _]. exists []. split; [now rewrite app_nil_r | constructor].
  - intros [= <- _]. eexists. split; [reflexivity|].
    unfold image_events. repeat constructor.
    cbn. eapply prepare_output_float32; eauto.
Qed.

End ScriptFacts.

(* ================================================================== *)
(** ** The claims of the specification *)

Module Claims.
Import Py Np Merge Spec Examples ArrayFacts ScalarFacts BroadcastFacts EstimatorFacts.



(** C3.  When no pixel of the boundary region passes the coherence
    gate, estimate_boundary_n raises: it returns no offset, in
    particular not 0; when the gated difference can be formed, the
    ratio is NaN and the exception is the failed conversion of NaN
    to an integer. *)
Theorem estimate_boundary_n_undefined_is_fatal
    (phi_north coh_north phi_south coh_south : ndarray scalar)
    (N M : Z) (coh_thr : scalar) (mask : ndarray bool) :
  boundary_mask coh_north coh_south N M coh_thr = inr mask ->
  Forall (Forall (eq false)) (rows mask) ->
  (exists e, estimate_boundary_n phi_north coh_north phi_south coh_south
               N M coh_thr = inl e) /\
  estimate_boundary_n phi_north coh_north phi_south coh_south N M coh_thr
    <> inr 0%Z /\
  (forall d diff,
      subtract (last_rows_first_cols N M phi_north)
               (first_rows_first_cols N M phi_south) = inr d ->
      where_ mask d NaN = inr diff ->
      boundary_ratio phi_north coh_north phi_south coh_south N M coh_thr
        = inr NaN /\
      estimate_boundary_n phi_north coh_north phi_south coh_south
        N M coh_thr
        = inl (ValueError "cannot convert float NaN to integer")).
Proof.
  intros Hmask Hfalse.
  assert (Hnan : forall d diff,
      subtract (last_rows_first_cols N M phi_north)
               (first_rows_first_cols N M phi_south) = inr d ->
      where_ mask d NaN = inr diff ->
      boundary_ratio phi_north coh_north phi_south coh_south N M coh_thr
        = inr NaN).
  { intros d diff Hd Hdiff. unfold boundary_ratio.
    rewrite Hmask. cbn [Py.bind]. rewrite Hd. cbn [Py.bind].
    rewrite Hdiff. cbn [Py.bind ret].
    rewrite nanmedian_all_NaN by (eapply where_all_false; eauto).
    reflexivity. }
  assert (Hraise : exists e,
      estimate_boundary_n phi_north coh_north phi_south coh_south
        N M coh_thr = inl e).
  { unfold estimate_boundary_n.
    destruct (subtract (last_rows_first_cols N M phi_north)
                       (first_rows_first_cols N M phi_south))
      as [e|d] eqn:Hd.
    - exists e. unfold boundary_ratio. rewrite Hmask. cbn [Py.bind].
      now rewrite Hd.
    - destruct (where_ mask d NaN) as [e|diff] eqn:Hdiff.
      + exists e. unfold boundary_ratio. rewrite Hmask. cbn [Py.bind].
        rewrite Hd. cbn [Py.bind]. now rewrite Hdiff.
      + rewrite (Hnan d diff eq_refl Hdiff). eexists. reflexivity. }
  split; [exact Hraise|]. split.
  - destruct Hraise as (e & ->). discriminate.
  - intros d diff Hd Hdiff. split; [eauto|].
    unfold estimate_boundary_n. now rewrite (Hnan d diff Hd Hdiff).
Qed.

(** Equality of two closed numbers, by computation. *)
Ltac scalar_eq := f_equal; apply Qc_is_canon; vm_compute; reflexivity.


Lemma estimate_boundary_n_undefined_is_fatal_witness :
  estimate_boundary_n phi_upper coh_poor phi_lower coh_lower
    2 400 coh_thr_default
  = inl (ValueError "cannot convert float NaN to integer").
Proof.
  destruct (estimate_boundary_n_undefined_is_fatal
              phi_upper coh_poor phi_lower coh_lower 2 400 coh_thr_default
              (mask := {| dtype := Bool_; ncols := 2;
                          rows := [[false; false]; [false; false]] |}))
    as (_ & _ & H).
  - vm_compute. reflexivity.
  - repeat constructor.
  - refine (proj2 (H _ _ eq_refl eq_refl)).
Defined.

(* ---------------------------------------------------------------- *)
(** *** Cumulative propagation *)

(** C2, refuted as stated: for three segments with the pairwise
    offsets 1 and -2 the function raises IndexError, since it reads
    a fourth segment; it does not return [0; -1; 1]. *)
Lemma estimate_segment_offsets_three_segments :
  estimate_boundary_n seg1 coh1 seg2 coh1 N_default M_default
    coh_thr_default = inr 1%Z /\
  estimate_boundary_n seg2 coh1 seg3 coh1 N_default M_default
    coh_thr_default = inr (-2)%Z /\
  estimate_segment_offsets [seg1; seg2; seg3] [coh1; coh1; coh1]
    = inl (IndexError "list index out of range") /\
  estimate_segment_offsets [seg1; seg2; seg3] [coh1; coh1; coh1]
    <> inr [0; -1; 1]%Z.
Proof.
  assert (E : estimate_segment_offsets [seg1; seg2; seg3] [coh1; coh1; coh1]
              = inl (IndexError "list index out of range"))
    by (vm_compute; reflexivity).
  repeat split; try (vm_compute; reflexivity).
  rewrite E. discriminate.
Qed.

(** C2, amended.  On a list of at least four segments, of which only
    the first four are read, estimate_segment_offsets returns the
    absolute offsets c(1) = 0, c(i+1) = c(i) - n(i,i+1) of the three
    pairwise boundary offsets of the first four segments; with
    n12 = 1 and n23 = -2 the first three of them are 0, -1, 1. *)
Theorem estimate_segment_offsets_four_segments
    (phi_list coh_list phi_rest coh_rest : list (ndarray scalar))
    (p1 p2 p3 p4 k1 k2 k3 k4 : ndarray scalar) (n12 n23 n34 : Z) :
  phi_list = p1 :: p2 :: p3 :: p4 :: phi_rest ->
  coh_list = k1 :: k2 :: k3 :: k4 :: coh_rest ->
  estimate_boundary_n p1 k1 p2 k2 N_default M_default coh_thr_default
    = inr n12 ->
  estimate_boundary_n p2 k2 p3 k3 N_default M_default coh_thr_default
    = inr n23 ->
  estimate_boundary_n p3 k3 p4 k4 N_default M_default coh_thr_default
    = inr n34 ->
  estimate_segment_offsets phi_list coh_list
    = inr (absolute_offsets [n12; n23; n34]) /\
  (n12 = 1%Z -> n23 = (-2)%Z ->
   firstn 3 (absolute_offsets [n12; n23; n34]) = [0; -1; 1]%Z).
Proof.
  intros -> -> H12 H23 H34. split.
  - unfold estimate_segment_offsets, getitem. cbn [nth_error Py.bind ret].
    rewrite H12. cbn [Py.bind]. rewrite H23. cbn [Py.bind].
    rewrite H34. reflexivity.
  - intros -> ->. reflexivity.
Qed.

Lemma estimate_segment_offsets_four_segments_witness :
  estimate_segment_offsets [seg1; seg2; seg3; seg4] [coh1; coh1; coh1; coh1]
    = inr (absolute_offsets [1; -2; 0]%Z) /\
  (1 = 1 -> -2 = -2 ->
   firstn 3 (absolute_offsets [1; -2; 0]) = [0; -1; 1])%Z.
Proof.
  apply (estimate_segment_offsets_four_segments
           (phi_rest := []) (coh_rest := []) eq_refl eq_refl);
    vm_compute; reflexivity.
Defined.

(* ---------------------------------------------------------------- *)
(** *** Phase correction *)




(* ---------------------------------------------------------------- *)
(** *** Offsets that are all zero *)

Lemma correct_phase_zero_rows phi : rows (correct_phase phi 0) = rows phi.
Proof.
  unfold correct_phase, subtract_float, map_elements. cbn [rows].
  rewrite <- (map_id (rows phi)) at 2. apply map_ext. intros row.
  rewrite <- (map_id row) at 2. apply map_ext. intros x.
  apply sub_zero_correction.
Qed.

Lemma phi_corr_zero phi_list c :
  length c = length phi_list -> Forall (eq 0%Z) c ->
  map (@rows scalar) (phi_corr phi_list c) = map (@rows scalar) phi_list /\
  map (@ncols scalar) (phi_corr phi_list c) = map (@ncols scalar) phi_list.
Proof.
  revert c. induction phi_list as [|phi l IH]; intros [|ci c] Hlen Hz;
    try discriminate; [now split|].
  inversion Hz as [|? ? <- Hz']. cbn in Hlen.
  destruct (IH c) as [IHr IHc]; [lia | exact Hz' |].
  unfold phi_corr, zip in *. cbn [combine map fst snd].
  rewrite IHr, IHc, correct_phase_zero_rows. now split.
Qed.

(** Whether a stack succeeds depends on the column counts only, and
    its rows on the rows only. *)
Lemma vstack_congruence {A} (l1 l2 : list (ndarray A)) m1 :
  map (@rows A) l1 = map (@rows A) l2 ->
  map (@ncols A) l1 = map (@ncols A) l2 ->
  vstack l1 = inr m1 ->
  exists m2, vstack l2 = inr m2 /\ rows m2 = rows m1 /\ ncols m2 = ncols m1.
Proof.
  intros Hr Hc. unfold vstack.
  destruct l1 as [|a1 r1]; [discriminate|].
  destruct l2 as [|a2 r2]; [discriminate|].
  cbn [map] in Hc. inversion Hc as [[Ha Hrest]].
  assert (E : forallb (fun b => ncols b =? ncols a1) r2
              = forallb (fun b => ncols b =? ncols a1) r1).
  { rewrite <- (forallb_map (@ncols A) (fun n => n =? ncols a1) r2).
    rewrite <- (forallb_map (@ncols A) (fun n => n =? ncols a1) r1).
    cbn [map] in Hrest. now rewrite Hrest. }
  rewrite E. destruct (forallb _ r1); [|discriminate].
  intros [= <-]. eexists. split; [reflexivity|]. cbn [rows ncols].
  split; [|reflexivity]. rewrite <- Hr. reflexivity.
Qed.

(** C6.  When every segment has an offset and every offset is zero,
    the phase mosaic exists exactly when the plain stack of the
    input segments does and has its rows and its column count: the
    rows of the input segments in input order, the rows of the second
    segment directly after those of the first. *)
Theorem zero_offsets_plain_concatenation
    (phi_list : list (ndarray scalar)) (c : list Z) :
  length c = length phi_list -> Forall (eq 0%Z) c ->
  (forall plain, vstack phi_list = inr plain ->
     exists m, mosaic_unw phi_list c = inr m /\
               rows m = rows plain /\ ncols m = ncols plain) /\
  (forall m, mosaic_unw phi_list c = inr m ->
     rows m = concat (map (@rows scalar) phi_list) /\
     exists plain, vstack phi_list = inr plain /\ rows plain = rows m) /\
  (forall m s1 s2 rest,
     mosaic_unw phi_list c = inr m -> phi_list = s1 :: s2 :: rest ->
     firstn (nrows s1) (rows m) = rows s1 /\
     firstn (nrows s2) (skipn (nrows s1) (rows m)) = rows s2).
Proof.
  intros Hlen Hz. destruct (phi_corr_zero phi_list Hlen Hz) as [Hr Hc].
  assert (Hrows : forall m, mosaic_unw phi_list c = inr m ->
                            rows m = concat (map (@rows scalar) phi_list)).
  { intros m Hm. apply vstack_rows in Hm. now rewrite Hm, Hr. }
  split; [|split].
  - intros plain Hp. unfold mosaic_unw.
    apply (vstack_congruence phi_list (phi_corr phi_list c)); auto.
  - intros m Hm. split; [now apply Hrows|].
    destruct (vstack_congruence (phi_corr phi_list c) phi_list Hr Hc Hm)
      as (plain & Hp & Hpr & _). now exists plain.
  - intros m s1 s2 rest Hm ->. rewrite (Hrows m Hm). cbn [map concat].
    unfold nrows. split.
    + now rewrite firstn_app, Nat.sub_diag, firstn_all, firstn_O, app_nil_r.
    + rewrite skipn_app, Nat.sub_diag, skipn_all, skipn_O. cbn [app].
      now rewrite firstn_app, Nat.sub_diag, firstn_all, firstn_O, app_nil_r.
Qed.

Lemma zero_offsets_plain_concatenation_witness :
  exists m, mosaic_unw [phi_upper; phi_lower] [0; 0]%Z = inr m /\
            rows m = rows phi_upper ++ rows phi_lower /\ ncols m = 2%nat.
Proof.
  destruct (@zero_offsets_plain_concatenation
              [phi_upper; phi_lower] [0; 0]%Z) as (H & _).
  - reflexivity.
  - repeat constructor.
  - destruct (H {| dtype := Float64; ncols := 2;
                   rows := rows phi_upper ++ rows phi_lower |}) as (m & Hm).
    + reflexivity.
    + exists m. exact Hm.
Defined.

(* ---------------------------------------------------------------- *)
(** *** Amplitude masking *)

Lemma Qc_leb_le (a b : Qc) : Qc_leb a b = true <-> (a <= b)%Qc.
Proof.
  unfold Qc_leb, Qcle, Qccompare. rewrite Qle_alt.
  destruct (a ?= b)%Q; split; intros H; congruence.
Qed.

(** [np.isclose(a, 0.0, atol=1e-3)] holds exactly of the amplitudes
    near zero. *)
Lemma isclose_zero_near_zero (a : scalar) :
  isclose_scalar atol_mask a (of_Z 0) = true <-> near_zero a.
Proof.
  unfold isclose_scalar.
  assert (Etol : add atol_mask (mul rtol_default (abs (of_Z 0)))
                 = Num atol_q).
  { unfold atol_mask, rtol_default, of_Q, of_Z.
    cbn [add mul abs lift2]. scalar_eq. }
  rewrite Etol. destruct a as [q|]; cbn [sub lift2 abs le near_zero of_Z].
  - replace (q - Q2Qc (inject_Z 0))%Qc with q
      by (change (Q2Qc (inject_Z 0)) with 0%Qc; ring).
    apply Qc_leb_le.
  - split; [discriminate | contradiction].
Qed.

Lemma near_zero_dec (a : scalar) : near_zero a \/ ~ near_zero a.
Proof.
  rewrite <- isclose_zero_near_zero.
  destruct (isclose_scalar atol_mask a (of_Z 0)); [left | right]; congruence.
Qed.




(* ---------------------------------------------------------------- *)
(** *** Integer offsets *)



(* ---------------------------------------------------------------- *)
(** *** The products of the script *)

Import Script ScriptFacts.

(** Unfolds a product step along its reads and computations:
    a failing one leaves the log, a successful one is named. *)
Ltac step_lift :=
  rewrite bind_lift;
  match goal with
  | |- context [match ?r with inl _ => _ | inr _ => _ end] =>
      destruct r eqn:?
  end.

Lemma geometry_product_run float32 w pol output_dir name log :
  geometry_product float32 w pol output_dir name log =
  match populate_array_pattern w dir_stack None name "g" pol nr_segments with
  | inl e => (log, inl e)
  | inr segs =>
      match vstack segs with
      | inl e => (log, inl e)
      | inr mosaic =>
          write_isce_image float32
            (path_join_all output_dir ["geom_reference"; name]%string)
            (Arr2 mosaic) "FLOAT" "BIL" log
      end
  end.
Proof.
  unfold geometry_product. step_lift; [reflexivity|].
  step_lift; reflexivity.
Qed.

Lemma los_product_run float32 w output_dir log :
  los_product float32 w output_dir log =
  match populate_array_pattern_multiband_list w dir_stack None
          "los.rdr" "g" [0%Z; 1%Z] "hh" nr_segments with
  | inl e => (log, inl e)
  | inr los =>
      match concatenate_axis1 los with
      | inl e => (log, inl e)
      | inr mosaic_los =>
          write_isce_image float32
            (path_join_all output_dir ["geom_reference"; "los.rdr"]%string)
            (Arr3 mosaic_los) "FLOAT" "BIL" log
      end
  end.
Proof.
  unfold los_product. step_lift; [reflexivity|].
  step_lift; reflexivity.
Qed.

Lemma cor_product_run float32 output_dir pair coh_list log :
  cor_product float32 output_dir pair coh_list log =
  match vstack coh_list with
  | inl e => (log, inl e)
  | inr mosaic_coh =>
      write_isce_image float32
        (path_join_all output_dir
           ["Igrams"; pair; "filt_" ++ pair ++ ".cor"]%string)
        (Arr2 mosaic_coh) "FLOAT" "BIL" log
  end.
Proof. unfold cor_product. step_lift; reflexivity. Qed.

Lemma conncomp_product_run float32 w pol output_dir pair log :
  conncomp_product float32 w pol output_dir pair log =
  match populate_array_pattern w dir_stack (Some pair) "filt_*.conncomp"
          "i" pol nr_segments with
  | inl e => (log, inl e)
  | inr conncomp =>
      match vstack conncomp with
      | inl e => (log, inl e)
      | inr mosaic_conncomp =>
          write_isce_image float32
            (path_join_all output_dir
               ["Igrams"; pair;
                "filt_" ++ pair ++ "_snaphu.unw.conncomp"]%string)
            (Arr2 mosaic_conncomp) "FLOAT" "BIL" log
      end
  end.
Proof.
  unfold conncomp_product. step_lift; [reflexivity|].
  step_lift; reflexivity.
Qed.

Lemma unw_product_run float32 w pol output_dir pair log :
  unw_product float32 w pol output_dir pair log =
  match unw_array w pol pair with
  | inl e => (log, inl e)
  | inr (twoband, coh_list) =>
      match write_isce_image float32
              (path_join_all output_dir
                 ["Igrams"; pair; "filt_" ++ pair ++ "_snaphu.unw"]%string)
              (Arr3 twoband) "FLOAT" "BIL" log with
      | (log', inl e) => (log', inl e)
      | (log', inr _) => (log', inr coh_list)
      end
  end.
Proof.
  unfold unw_product, unw_array.
  do 7 (step_lift; cbn [Py.bind]; [reflexivity|]).
  reflexivity.
Qed.








(* ---------------------------------------------------------------- *)
(** *** Failures *)




(** A run on a stack whose coherence is below the threshold
    everywhere: the five geometry images of the first polarisation
    are complete in the log, twenty events, when the first pair
    raises. *)
Example incoherent_stack_run :
  length (fst (main exact_cast stack_incoherent [])) = 20%nat /\
  snd (main exact_cast stack_incoherent [])
  = inl (ValueError "cannot convert float NaN to integer").
Proof. split; vm_compute; reflexivity. Qed.

(* ---------------------------------------------------------------- *)
(** *** The dtype of the rasters *)

(** C10.  A successful call of the writer, whatever the dtype and
    the number of dimensions (two or three) of its array and whatever
    the scheme, writes a raster of 32-bit floats; so do the products
    of the connected-component labels and of the shadow mask; and
    every raster that a run of the script writes is one of 32-bit
    floats. *)
Theorem output_rasters_are_float32 (float32 : scalar -> scalar) :
  (forall outfile arr dtype scheme log log',
      write_isce_image float32 outfile arr dtype scheme log
        = (log', inr tt) ->
      exists raw img,
        log' = log ++ image_events outfile raw img /\
        raw_dtype raw = Float32) /\
  (forall w pol output_dir pair log log',
      conncomp_product float32 w pol output_dir pair log = (log', inr tt) ->
      exists raw img,
        log' = log ++ image_events
                 (path_join_all output_dir
                    ["Igrams"; pair;
                     "filt_" ++ pair ++ "_snaphu.unw.conncomp"]%string)
                 raw img /\
        raw_dtype raw = Float32) /\
  (forall w pol output_dir log log',
      geometry_product float32 w pol output_dir "shadowMask.rdr" log
        = (log', inr tt) ->
      exists raw img,
        log' = log ++ image_events
                 (path_join_all output_dir
                    ["geom_reference"; "shadowMask.rdr"]%string)
                 raw img /\
        raw_dtype raw = Float32) /\
  (forall w log log' r,
      main float32 w log = (log', r) ->
      exists evs, log' = log ++ evs /\ Forall float32_event evs).
Proof.
  assert (Hw : forall outfile arr dtype scheme log log',
      write_isce_image float32 outfile arr dtype scheme log
        = (log', inr tt) ->
      exists raw img,
        log' = log ++ image_events outfile raw img /\
        raw_dtype raw = Float32).
  { intros outfile arr dtype scheme log log' H.
    apply write_isce_image_success in H.
    destruct H as (b & l & wd & out & Hp & ->).
    do 2 eexists. split; [reflexivity|].
    eapply prepare_output_float32; eauto. }
  split; [exact Hw | split; [|split]].
  - intros w pol output_dir pair log log'. rewrite conncomp_product_run.
    destruct (populate_array_pattern _ _ _ _ _ _ _); [discriminate|].
    destruct (vstack _); [discriminate|]. apply Hw.
  - intros w pol output_dir log log'. rewrite geometry_product_run.
    destruct (populate_array_pattern _ _ _ _ _ _ _); [discriminate|].
    destruct (vstack _); [discriminate|]. apply Hw.
  - intros w. apply appends_main.
    + constructor.
    + intros a b Ha Hb. apply Forall_app. now split.
    + apply write_appends_float32.
Qed.

Lemma output_rasters_are_float32_witness :
  exists raw img,
    fst (write_isce_image exact_cast "/out/labels"
           (Arr2 (raster UInt8 [[1; 2]; [0; 3]]%Q)) "FLOAT" "BIL" [])
    = ([] ++ image_events "/out/labels"%string raw img)%list /\
    raw_dtype raw = Float32.
Proof.
  apply (proj1 (output_rasters_are_float32 exact_cast)
               "/out/labels"%string
               (Arr2 (raster UInt8 [[1; 2]; [0; 3]]%Q))
               "FLOAT"%string "BIL"%string []).
  reflexivity.
Defined.

End Claims.

(* ================================================================== *)
(** ** Further properties of the code *)

Module Extras.
Import Py Np Merge Script Spec Examples.
Import ScalarFacts ArrayFacts BroadcastFacts EstimatorFacts ScriptFacts Claims.

(** *** The boundary estimator: rounding and the median *)

Lemma Qc_lt_Q (a b : Qc) : (a < b)%Qc <-> (this a < this b)%Q.
Proof. reflexivity. Qed.








Lemma nanmedian_numbers (a : ndarray scalar) :
  numbers (ravel a) <> [] ->
  nanmedian a = Num (median_sorted (Np.sort (numbers (ravel a)))).
Proof.
  unfold nanmedian. destruct (numbers (ravel a)); [contradiction | reflexivity].
Qed.


Lemma estimate_of_diff pn cn ps cs N M thr mask d diff :
  boundary_mask cn cs N M thr = inr mask ->
  subtract (last_rows_first_cols N M pn) (first_rows_first_cols N M ps)
    = inr d ->
  where_ mask d NaN = inr diff ->
  estimate_boundary_n pn cn ps cs N M thr
  = int (round (div (nanmedian diff) two_pi)).
Proof.
  intros Hm Hd Hdiff. unfold estimate_boundary_n, boundary_ratio.
  rewrite Hm. cbn [Py.bind]. rewrite Hd. cbn [Py.bind]. rewrite Hdiff.
  cbn [Py.bind ret]. now destruct (int _).
Qed.




(** *** Insertion sort sorts and keeps every count *)

Lemma Qc_leb_total (a b : Qc) : Qc_leb a b = false -> (b <= a)%Qc.
Proof.
  intros H. destruct (Qclt_le_dec a b) as [Hlt|Hle]; [|exact Hle].
  apply Qclt_le_weak, Qc_leb_le in Hlt. congruence.
Qed.

Lemma insert_In x y l : In y (insert x l) -> y = x \/ In y l.
Proof.
  induction l as [|h t IH]; cbn.
  - intros [->|[]]. now left.
  - destruct (Qc_leb x h); cbn.
    + intros [->|H]; auto.
    + intros [->|H]; auto. destruct (IH H); auto.
Qed.

Lemma insert_sorted x l :
  Sorted.StronglySorted Qcle l -> Sorted.StronglySorted Qcle (insert x l).
Proof.
  induction 1 as [|h t Ht IH Hh]; cbn.
  - repeat constructor.
  - destruct (Qc_leb x h) eqn:E.
    + apply Qc_leb_le in E. constructor; [now constructor|].
      constructor; [exact E|].
      eapply Forall_impl; [|exact Hh]. intros y Hy.
      now apply Qcle_trans with h.
    + apply Qc_leb_total in E. constructor; [exact IH|].
      apply Forall_forall. intros y Hy. apply insert_In in Hy.
      destruct Hy as [->|Hy]; [exact E|].
      rewrite Forall_forall in Hh. now apply Hh.
Qed.

Lemma sort_sorted l : Sorted.StronglySorted Qcle (Np.sort l).
Proof.
  induction l as [|x l IH]; cbn; [constructor | now apply insert_sorted].
Qed.

Lemma filter_insert_length (p : Qc -> bool) x l :
  length (filter p (insert x l)) = length (filter p (x :: l)).
Proof.
  induction l as [|h t IH]; [reflexivity|]. cbn [insert].
  destruct (Qc_leb x h); [reflexivity|].
  cbn [filter] in *. destruct (p h), (p x); cbn [length] in *; lia.
Qed.

Lemma filter_sort_length (p : Qc -> bool) l :
  length (filter p (Np.sort l)) = length (filter p l).
Proof.
  induction l as [|x l IH]; [reflexivity|]. cbn [Np.sort].
  rewrite filter_insert_length. cbn [filter].
  destruct (p x); cbn [length]; now rewrite IH.
Qed.

(** In sorted data the element at index [i] is at most [x] when more
    than [i] elements are, and at least [x] when more elements are than
    lie after index [i]. *)
Lemma sorted_nth_le x s i :
  Sorted.StronglySorted Qcle s ->
  (i < length (filter (fun y => Qc_leb y x) s))%nat ->
  (nth i s 0 <= x)%Qc.
Proof.
  intros Hs. revert i. induction Hs as [|h t Ht IH Hh]; intros i Hi.
  - cbn in Hi. lia.
  - cbn [filter] in Hi. destruct (Qc_leb h x) eqn:E.
    + destruct i as [|j]; [now apply Qc_leb_le|].
      cbn [length] in Hi. cbn [nth]. apply IH. lia.
    + destruct i as [|j]; [|cbn [nth]; apply IH; lia].
      cbn [nth]. destruct (filter (fun y => Qc_leb y x) t) as [|y f] eqn:F;
        [cbn in Hi; lia|].
      assert (Hy : In y (filter (fun y => Qc_leb y x) t))
        by (rewrite F; now left).
      apply filter_In in Hy. destruct Hy as [Hin Hle].
      apply Qc_leb_le in Hle. rewrite Forall_forall in Hh.
      apply Qcle_trans with y; auto.
Qed.

Lemma filter_all_length {A} (p : A -> bool) l :
  length (filter p l) = length l -> Forall (fun y => p y = true) l.
Proof.
  induction l as [|h t IH]; [constructor|]. cbn [filter].
  pose proof (filter_length_le p t).
  destruct (p h) eqn:E; cbn [length]; intros H'.
  - constructor; [exact E | apply IH; lia].
  - lia.
Qed.

Lemma filter_length_all {A} (p : A -> bool) l :
  Forall (fun y => p y = true) l -> length (filter p l) = length l.
Proof.
  induction 1 as [|h t Hh _ IH]; [reflexivity|]. cbn [filter].
  rewrite Hh. cbn [length]. now rewrite IH.
Qed.

Lemma sorted_nth_ge x s i :
  Sorted.StronglySorted Qcle s -> (i < length s)%nat ->
  (length s - 1 - i < length (filter (fun y => Qc_leb x y) s))%nat ->
  (x <= nth i s 0)%Qc.
Proof.
  intros Hs. revert i. induction Hs as [|h t Ht IH Hh]; intros i Hlen Hi.
  - cbn in Hlen. lia.
  - cbn [length] in *. pose proof (filter_length_le (fun y => Qc_leb x y) t).
    cbn [filter] in Hi. destruct (Qc_leb x h) eqn:E.
    + apply Qc_leb_le in E. destruct i as [|j]; [exact E|].
      cbn [nth]. apply IH; [lia|].
      rewrite filter_length_all; [lia|].
      eapply Forall_impl; [|exact Hh]. cbn. intros y Hy.
      apply Qc_leb_le. now apply Qcle_trans with h.
    + destruct i as [|j]; [lia|]. cbn [nth]. apply IH; lia.
Qed.

Lemma count_occ_le_filter (p : Qc -> bool) l d :
  p d = true ->
  (count_occ Qc_eq_dec l d <= length (filter p l))%nat.
Proof.
  intros Hp. induction l as [|h t IH]; [cbn; lia|].
  cbn [count_occ filter]. destruct (Qc_eq_dec h d) as [->|Hne].
  - rewrite Hp. cbn [length]. lia.
  - destruct (p h); cbn [length]; lia.
Qed.

Lemma Qc_leb_refl (d : Qc) : Qc_leb d d = true.
Proof. apply Qc_leb_le, Qcle_refl. Qed.

(** The median of data of which more than half are [d] is [d]. *)
Lemma median_sorted_majority (d : Qc) l :
  (length l < 2 * count_occ Qc_eq_dec l d)%nat ->
  median_sorted (Np.sort l) = d.
Proof.
  intros Hmaj. set (s := Np.sort l). set (n := length l) in *.
  assert (Hlen : length s = n) by apply sort_length.
  assert (Hle : (count_occ Qc_eq_dec l d
                 <= length (filter (fun y => Qc_leb y d) s))%nat).
  { unfold s. rewrite filter_sort_length.
    apply count_occ_le_filter, Qc_leb_refl. }
  assert (Hge : (count_occ Qc_eq_dec l d
                 <= length (filter (fun y => Qc_leb d y) s))%nat).
  { unfold s. rewrite filter_sort_length.
    apply (count_occ_le_filter (fun y => Qc_leb d y)), Qc_leb_refl. }
  assert (Hnth : forall i, (i < n)%nat -> (2 * i <= n)%nat ->
                           (n <= 2 * i + 2)%nat -> nth i s 0%Qc = d).
  { intros i Hi H1 H2. apply Qcle_antisym.
    - apply sorted_nth_le; [apply sort_sorted | lia].
    - apply sorted_nth_ge; [apply sort_sorted | lia | lia]. }
  unfold median_sorted. rewrite Hlen.
  pose proof (Nat.div_mod_eq n 2) as Hdm.
  pose proof (Nat.mod_upper_bound n 2 ltac:(lia)) as Hmod.
  pose proof (count_occ_bound Qc_eq_dec d l) as Hb.
  assert (0 < n)%nat by (unfold n; lia).
  destruct (Nat.even n) eqn:Ev.
  - apply Nat.even_spec in Ev. destruct Ev as [k Hk].
    assert (n / 2 = k)%nat by (subst n; rewrite Hk in *; lia).
    rewrite !Hnth by lia. apply mean_of_equal.
  - apply Hnth; lia.
Qed.


(** X2.  When more than half of the gated differences that are numbers
    equal n cycles exactly, estimate_boundary_n returns n, whatever
    the other differences are: the median is robust against a minority
    of outliers. *)
Theorem estimate_boundary_n_majority
    (phi_north coh_north phi_south coh_south : ndarray scalar)
    (N M : Z) (coh_thr : scalar) (mask : ndarray bool)
    (d diff : ndarray scalar) (n : Z) :
  boundary_mask coh_north coh_south N M coh_thr = inr mask ->
  subtract (last_rows_first_cols N M phi_north)
           (first_rows_first_cols N M phi_south) = inr d ->
  where_ mask d NaN = inr diff ->
  (length (numbers (ravel diff))
   < 2 * count_occ Qc_eq_dec (numbers (ravel diff))
           (Q2Qc (inject_Z n) * two_pi_q)%Qc)%nat ->
  estimate_boundary_n phi_north coh_north phi_south coh_south N M coh_thr
  = inr n.
Proof.
  intros Hm Hd Hdiff Hmaj.
  rewrite (@estimate_of_diff phi_north coh_north phi_south coh_south
             N M coh_thr mask d diff Hm Hd Hdiff).
  rewrite nanmedian_numbers
    by (intros E; rewrite E in Hmaj; cbn in Hmaj; lia).
  rewrite (@median_sorted_majority (Q2Qc (inject_Z n) * two_pi_q)%Qc _ Hmaj).
  change (Num (Q2Qc (inject_Z n) * two_pi_q)) with (mul (of_Z n) two_pi).
  rewrite div_multiple_two_pi. unfold of_Z at 1.
  now rewrite int_round, round_half_even_inject.
Qed.

Lemma estimate_boundary_n_majority_witness :
  estimate_boundary_n phi_outlier coh_upper phi_lower coh_lower
    2 400 coh_thr_default = inr 1%Z.
Proof.
  eapply estimate_boundary_n_majority.
  - vm_compute. reflexivity.
  - vm_compute. reflexivity.
  - vm_compute. reflexivity.
  - vm_compute. lia.
Defined.

(** No pixel passes the gate: the estimator raises. *)
Lemma estimate_raises_on_false_mask pn cn ps cs N M thr mask :
  boundary_mask cn cs N M thr = inr mask ->
  Forall (Forall (eq false)) (rows mask) ->
  exists e, estimate_boundary_n pn cn ps cs N M thr = inl e.
Proof.
  intros Hm Hf. unfold estimate_boundary_n, boundary_ratio.
  rewrite Hm. cbn [Py.bind].
  destruct (subtract _ _) as [e|d]; cbn [Py.bind]; [eauto|].
  destruct (where_ mask d NaN) as [e|diff] eqn:Hdiff; cbn [Py.bind]; [eauto|].
  rewrite nanmedian_all_NaN by (eapply where_all_false; eauto).
  cbn. eauto.
Qed.

Lemma combine_nil_r {A B} (l : list A) : combine l (@nil B) = [].
Proof. now destruct l. Qed.

Lemma slice_to_zero {A} (l : list A) : slice_to 0 l = [].
Proof. reflexivity. Qed.

(** X3.  With N = 0 or M = 0 estimate_boundary_n raises on every
    input: a boundary of no rows (the slice [-0:] is the whole upper
    segment, the slice [:0] of the lower one is empty) or of no columns
    gives no offset. *)
Theorem estimate_boundary_n_empty_boundary
    (phi_north coh_north phi_south coh_south : ndarray scalar)
    (N M : Z) (coh_thr : scalar) :
  N = 0%Z \/ M = 0%Z ->
  exists e, estimate_boundary_n phi_north coh_north phi_south coh_south
              N M coh_thr = inl e.
Proof.
  intros H.
  destruct (boundary_mask coh_north coh_south N M coh_thr) as [e|mask] eqn:Hm.
  - exists e. unfold estimate_boundary_n, boundary_ratio. now rewrite Hm.
  - apply estimate_raises_on_false_mask with (mask := mask); [exact Hm|].
    unfold boundary_mask, logical_and, broadcast2 in Hm.
    destruct (broadcast_dim _ _) as [e|nr]; [discriminate|]. cbn [Py.bind] in Hm.
    destruct (broadcast_dim _ _) as [e|nc]; [discriminate|]. cbn [Py.bind] in Hm.
    injection Hm as <-. cbn [rows]. destruct H as [-> | ->].
    + unfold first_rows_first_cols, greater, map_elements. cbn [rows].
      rewrite slice_to_zero. cbn [map stretch].
      unfold map2 at 1. rewrite combine_nil_r. constructor.
    + apply map2_Forall_l with (P := eq []).
      * intros ra rb <-. cbn. constructor.
      * apply stretch_Forall. unfold greater, last_rows_first_cols, map_elements.
        cbn [rows]. rewrite !Forall_map. apply Forall_forall. intros r _.
        now rewrite slice_to_zero.
Qed.

Lemma estimate_boundary_n_empty_boundary_witness :
  exists e, estimate_boundary_n phi_upper coh_upper phi_lower coh_lower
              0 400 coh_thr_default = inl e.
Proof.
  apply estimate_boundary_n_empty_boundary. left. reflexivity.
Defined.


(** *** Propagation and correction together *)









(** *** The writer *)


Lemma upper_ascii_idempotent (c : ascii) :
  upper_ascii (upper_ascii c) = upper_ascii c.
Proof.
  destruct c as [[] [] [] [] [] [] [] []]; reflexivity.
Qed.

Lemma upper_idempotent (s : string) : upper (upper s) = upper s.
Proof.
  induction s as [|c s IH]; [reflexivity|]. cbn.
  now rewrite upper_ascii_idempotent, IH.
Qed.

(** X7.  The scheme is case-insensitive: a call with a scheme and the
    call with that scheme in upper case have the same outcome and write
    the same events. *)
Theorem write_isce_image_scheme_case
    (float32 : scalar -> scalar) (outfile : string) (arr : array)
    (dtype scheme : string) (log : list event) :
  write_isce_image float32 outfile arr dtype scheme log
  = write_isce_image float32 outfile arr dtype (upper scheme) log.
Proof.
  rewrite !write_isce_image_run. unfold prepare_output.
  now rewrite !upper_idempotent.
Qed.

Lemma length_concat_uniform {A} (w : nat) (ll : list (list A)) :
  Forall (fun r => length r = w) ll -> length (concat ll) = (length ll * w)%nat.
Proof.
  induction 1 as [|r ll Hr _ IH]; [reflexivity|].
  cbn. rewrite length_app, IH, Hr. lia.
Qed.

Lemma nth_error_concat_uniform {A} (w : nat) (ll : list (list A)) k r j :
  Forall (fun r => length r = w) ll ->
  nth_error ll k = Some r -> (j < w)%nat ->
  nth_error (concat ll) (k * w + j) = nth_error r j.
Proof.
  intros H. revert k. induction H as [|r0 ll Hr _ IH]; intros k Hk Hj.
  - destruct k; discriminate.
  - destruct k as [|k]; cbn in Hk |- *.
    + injection Hk as ->. rewrite nth_error_app1 by lia. reflexivity.
    + rewrite nth_error_app2 by lia.
      replace (w + k * w + j - length r0)%nat with (k * w + j)%nat by lia.
      now apply IH.
Qed.


Lemma uniform_groups_rows {A} h w (G : list (list (list A))) :
  uniform_groups h w G ->
  Forall (fun g => length g = h) G /\
  Forall (fun r => length r = w) (concat G).
Proof.
  induction 1 as [|g G [Hg Hr] _ [IH1 IH2]]; [split; constructor|].
  split; [now constructor|]. cbn. now apply Forall_app.
Qed.

Lemma length_concat2 {A} h w (G : list (list (list A))) :
  uniform_groups h w G ->
  length (concat (concat G)) = (length G * h * w)%nat.
Proof.
  intros H. destruct (uniform_groups_rows H) as [H1 H2].
  now rewrite (@length_concat_uniform _ w _ H2),
    (@length_concat_uniform _ h _ H1).
Qed.

Lemma nth_error_concat2 {A} h w (G : list (list (list A))) k g i r j :
  uniform_groups h w G ->
  nth_error G k = Some g -> nth_error g i = Some r -> (j < w)%nat ->
  nth_error (concat (concat G)) ((k * h + i) * w + j) = nth_error r j.
Proof.
  intros H Hk Hi Hj. destruct (uniform_groups_rows H) as [H1 H2].
  assert (Hih : (i < h)%nat).
  { unfold uniform_groups in H. rewrite Forall_forall in H.
    destruct (H g (nth_error_In _ _ Hk)) as [<- _].
    apply nth_error_Some. congruence. }
  rewrite (@nth_error_concat_uniform _ w (concat G) (k * h + i) r j H2);
    auto.
  now rewrite (@nth_error_concat_uniform _ h G k g i H1).
Qed.

Lemma uniform_groups_map {A B} (f : A -> B) h w G :
  uniform_groups h w G -> uniform_groups h w (map (map (map f)) G).
Proof.
  unfold uniform_groups. intros H. apply Forall_map.
  eapply Forall_impl; [|exact H]. cbn. intros g [Hg Hr].
  split; [now rewrite length_map|]. apply Forall_map.
  eapply Forall_impl; [|exact Hr]. cbn. intros r Hl. now rewrite length_map.
Qed.

(** The transposed planes of a well-formed array: one group for each
    row index, of one row for each plane. *)
Lemma transpose_uniform {A} (a : ndarray3 A) :
  well_formed3 a ->
  uniform_groups (nplanes a) (ncols3 a) (planes (transpose_102 a)).
Proof.
  intros W. unfold uniform_groups, transpose_102. cbn [planes].
  apply Forall_map, Forall_forall. intros i Hi. apply in_seq in Hi.
  split; [apply length_map|]. apply Forall_map.
  eapply Forall_impl; [|exact W]. cbn. intros p [Hp Hr].
  rewrite Forall_forall in Hr. apply Hr, nth_In. lia.
Qed.

Lemma transpose_nth {A} (a : ndarray3 A) b i p r :
  nth_error (planes a) b = Some p -> nth_error p i = Some r ->
  (i < nrows3 a)%nat ->
  exists g, nth_error (planes (transpose_102 a)) i = Some g /\
            nth_error g b = Some r.
Proof.
  intros Hb Hi Hlt. unfold transpose_102. cbn [planes].
  eexists. split.
  - rewrite nth_error_map, nth_error_seq. 
    destruct (Nat.ltb_spec i (nrows3 a)); [|lia]. reflexivity.
  - rewrite nth_error_map, Hb. cbn. f_equal.
    now apply nth_error_nth.
Qed.

(** X8.  For a well-formed array, the raster that a successful call of
    write_isce_image writes holds as many values as its metadata
    announce: bands times length times width. *)
Theorem written_size_matches_metadata
    (float32 : scalar -> scalar) (outfile : string) (arr : array)
    (dtype scheme : string) (log log' : list event) :
  well_formed_array arr ->
  write_isce_image float32 outfile arr dtype scheme log = (log', inr tt) ->
  exists raw img,
    log' = log ++ image_events outfile raw img /\
    length (raw_values raw) = (bands img * length_ img * width img)%nat.
Proof.
  intros W H. apply write_isce_image_success in H.
  destruct H as (b & l & wd & out & Hp & ->).
  do 2 eexists. split; [reflexivity|]. cbn [bands length_ width].
  unfold prepare_output in Hp. destruct arr as [a|a|k dt]; [| |discriminate].
  - injection Hp as <- <- <- <-. cbn [tofile raw_values].
    unfold ravel, astype_float32.
    rewrite (@length_concat_uniform _ (ncols a)).
    + unfold map_elements, nrows. cbn [rows]. rewrite length_map. lia.
    + now apply map_elements_wf.
  - assert (Wp : uniform_groups (nrows3 a) (ncols3 a) (planes a)) by exact W.
    destruct (String.eqb (upper scheme) "BIL").
    + injection Hp as <- <- <- <-. cbn [tofile raw_values].
      unfold astype_float32_3d. cbn [planes].
      rewrite (@length_concat2 _ (nplanes a) (ncols3 a)
                 _ (uniform_groups_map float32 (transpose_uniform W))).
      rewrite length_map. unfold transpose_102. cbn [planes].
      rewrite length_map, length_seq. lia.
    + destruct (String.eqb (upper scheme) "BSQ"); [|discriminate].
      injection Hp as <- <- <- <-. cbn [tofile raw_values].
      unfold astype_float32_3d. cbn [planes].
      rewrite (@length_concat2 _ (nrows3 a) (ncols3 a)
                 _ (uniform_groups_map float32 Wp)).
      rewrite length_map. reflexivity.
Qed.

Lemma written_size_matches_metadata_witness :
  exists raw img,
    fst (write_isce_image exact_cast "/out/two.unw" (Arr3 two_band_array)
           "FLOAT" "BIL" [])
    = ([] ++ image_events "/out/two.unw"%string raw img)%list /\
    length (raw_values raw) = (bands img * length_ img * width img)%nat.
Proof.
  apply (@written_size_matches_metadata exact_cast "/out/two.unw"%string
           (Arr3 two_band_array) "FLOAT"%string "BIL"%string []).
  - unfold well_formed_array, well_formed3. cbn. repeat constructor.
  - reflexivity.
Defined.

(** X9.  In the raster written for a well-formed 2-D array the element
    of row i and column j is the value at offset i * width + j.  For a
    well-formed 3-D array the element of band b, row i and column j is
    at offset (i * bands + b) * width + j under the scheme BIL, the
    bands interleaved line by line, and at offset
    (b * length + i) * width + j under BSQ.  Each value is the cast of
    the element. *)
Theorem written_layout
    (float32 : scalar -> scalar) (outfile : string)
    (dtype scheme : string) (log log' : list event) :
  (forall a,
      well_formed a ->
      write_isce_image float32 outfile (Arr2 a) dtype scheme log
        = (log', inr tt) ->
      exists raw img,
        log' = log ++ image_events outfile raw img /\
        forall i j v,
          pixel a i j = Some v ->
          nth_error (raw_values raw) (i * ncols a + j) = Some (float32 v)) /\
  (forall a,
      well_formed3 a ->
      write_isce_image float32 outfile (Arr3 a) dtype scheme log
        = (log', inr tt) ->
      exists raw img,
        log' = log ++ image_events outfile raw img /\
        forall b i j v,
          pixel3 a b i j = Some v ->
          nth_error (raw_values raw)
            (if String.eqb (upper scheme) "BIL"
             then (i * nplanes a + b) * ncols3 a + j
             else (b * nrows3 a + i) * ncols3 a + j)
          = Some (float32 v)).
Proof.
  split.
  - intros a W H. apply write_isce_image_success in H.
    destruct H as (b & l & wd & out & Hp & ->).
    do 2 eexists. split; [reflexivity|]. cbn in Hp.
    injection Hp as <- <- <- <-. cbn [tofile raw_values].
    intros i j v Hv. unfold pixel, pixel_at in Hv.
    destruct (nth_error (rows a) i) as [r|] eqn:Er; [|discriminate].
    unfold ravel, astype_float32, map_elements. cbn [rows].
    assert (Hlen : length r = ncols a).
    { unfold well_formed in W. rewrite Forall_forall in W.
      apply W. eapply nth_error_In; eauto. }
    rewrite (@nth_error_concat_uniform _ (ncols a) _ i (map float32 r) j).
    + rewrite nth_error_map, Hv. reflexivity.
    + apply (map_elements_wf Float32 float32 W).
    + rewrite nth_error_map, Er. reflexivity.
    + rewrite <- Hlen. apply nth_error_Some. congruence.
  - intros a W H. apply write_isce_image_success in H.
    destruct H as (nb & l & wd & out & Hp & ->).
    do 2 eexists. split; [reflexivity|].
    intros b i j v Hv. unfold pixel3 in Hv.
    destruct (nth_error (planes a) b) as [p|] eqn:Eb; [|discriminate].
    unfold pixel_at in Hv.
    destruct (nth_error p i) as [r|] eqn:Ei; [|discriminate].
    assert (Wp : uniform_groups (nrows3 a) (ncols3 a) (planes a)) by exact W.
    assert (Hpl : length p = nrows3 a /\ Forall (fun r => length r = ncols3 a) p).
    { unfold well_formed3 in W. rewrite Forall_forall in W.
      apply W. eapply nth_error_In; eauto. }
    destruct Hpl as [Hp1 Hp2].
    assert (Hi : (i < nrows3 a)%nat)
      by (rewrite <- Hp1; apply nth_error_Some; congruence).
    assert (Hj : (j < ncols3 a)%nat).
    { rewrite Forall_forall in Hp2.
      rewrite <- (Hp2 r (nth_error_In _ _ Ei)).
      apply nth_error_Some. congruence. }
    unfold prepare_output in Hp.
    destruct (String.eqb (upper scheme) "BIL").
    + injection Hp as <- <- <- <-. cbn [tofile raw_values].
      unfold astype_float32_3d. cbn [planes].
      destruct (@transpose_nth _ a b i p r Eb Ei Hi) as (g & Hg & Hgb).
      rewrite (@nth_error_concat2 _ (nplanes a) (ncols3 a) _ i
                 (map (map float32) g) b (map float32 r) j).
      * rewrite nth_error_map, Hv. reflexivity.
      * apply uniform_groups_map, transpose_uniform, W.
      * rewrite nth_error_map, Hg. reflexivity.
      * rewrite nth_error_map, Hgb. reflexivity.
      * exact Hj.
    + destruct (String.eqb (upper scheme) "BSQ"); [|discriminate].
      injection Hp as <- <- <- <-. cbn [tofile raw_values].
      unfold astype_float32_3d. cbn [planes].
      rewrite (@nth_error_concat2 _ (nrows3 a) (ncols3 a) _ b
                 (map (map float32) p) i (map float32 r) j).
      * rewrite nth_error_map, Hv. reflexivity.
      * now apply uniform_groups_map.
      * rewrite nth_error_map, Eb. reflexivity.
      * rewrite nth_error_map, Ei. reflexivity.
      * exact Hj.
Qed.

Lemma written_layout_witness :
  exists raw img,
    fst (write_isce_image exact_cast "/out/two.unw" (Arr3 two_band_array)
           "FLOAT" "BIL" [])
    = ([] ++ image_events "/out/two.unw"%string raw img)%list /\
    forall b i j v,
      pixel3 two_band_array b i j = Some v ->
      nth_error (raw_values raw)
        (if String.eqb (upper "BIL") "BIL"
         then (i * nplanes two_band_array + b) * ncols3 two_band_array + j
         else (b * nrows3 two_band_array + i) * ncols3 two_band_array + j)
      = Some (exact_cast v).
Proof.
  apply (proj2 (@written_layout exact_cast "/out/two.unw"%string
                  "FLOAT"%string "BIL"%string []
                  (fst (write_isce_image exact_cast "/out/two.unw"
                          (Arr3 two_band_array) "FLOAT" "BIL" [])))).
  - unfold well_formed3. cbn. repeat constructor.
  - reflexivity.
Defined.


(** *** The readers *)

Lemma for_segments_complete {A} (body : nat -> result A) ss acc l' :
  Forall2 (fun s a => body s = inr a) ss l' ->
  for_segments body ss acc = inr (acc ++ l').
Proof.
  intros H. revert acc. induction H as [|s a ss l' Hs _ IH]; intros acc; cbn.
  - now rewrite app_nil_r.
  - rewrite Hs. cbn [Py.bind]. rewrite IH, <- app_assoc. reflexivity.
Qed.

Lemma for_segments_iff {A} (body : nat -> result A) n l :
  for_segments body (range n) [] = inr l <->
  Forall2 (fun s a => body s = inr a) (range n) l.
Proof.
  split; [apply for_segments_in_order|].
  intros H. now rewrite (for_segments_complete _ [] H).
Qed.

Lemma for_segments_failure {A} (body : nat -> result A) ss acc e :
  for_segments body ss acc = inl e <->
  exists pre s post,
    ss = pre ++ s :: post /\
    Forall (fun s' => exists a, body s' = inr a) pre /\
    body s = inl e.
Proof.
  revert acc. induction ss as [|s0 ss IH]; intros acc; cbn.
  - split; [discriminate|]. intros (pre & s & post & H & _).
    destruct pre; discriminate.
  - destruct (body s0) as [e0|a] eqn:E0; cbn [Py.bind].
    + split.
      * intros [= ->]. exists [], s0, ss. repeat split; auto.
      * intros (pre & s & post & H & Hpre & Hs).
        destruct pre as [|p pre]; cbn in H; injection H as -> ->.
        -- congruence.
        -- inversion Hpre as [|? ? [a Ha] _]. congruence.
    + rewrite IH. split.
      * intros (pre & s & post & -> & Hpre & Hs).
        exists (s0 :: pre), s, post. repeat split; auto.
        constructor; eauto.
      * intros (pre & s & post & H & Hpre & Hs).
        destruct pre as [|p pre]; cbn in H; injection H as -> ->.
        -- congruence.
        -- inversion Hpre. eauto 6.
Qed.

Lemma range_split n s :
  (s < n)%nat -> range n = range s ++ s :: seq (S s) (n - S s).
Proof.
  intros H. unfold range.
  replace n with (s + S (n - S s))%nat at 1 by lia.
  rewrite seq_app. reflexivity.
Qed.

Lemma seq_split_inv a n pre s post :
  seq a n = pre ++ s :: post ->
  s = (a + length pre)%nat /\ pre = seq a (length pre).
Proof.
  revert a n. induction pre as [|p pre IH]; intros a n H.
  - destruct n; [discriminate|]. cbn in H. injection H as <- _.
    split; [cbn; lia | reflexivity].
  - destruct n; [discriminate|]. cbn in H. injection H as <- H.
    destruct (IH _ _ H) as [-> Hpre]. split; [cbn; lia|].
    cbn. now rewrite <- Hpre.
Qed.

Lemma range_split_inv n pre s post :
  range n = pre ++ s :: post -> (s < n)%nat /\ pre = range s.
Proof.
  intros H.
  assert (Hin : In s (range n)) by (rewrite H; apply in_elt).
  apply in_seq in Hin. split; [lia|].
  apply seq_split_inv in H. destruct H as [Hs Hpre].
  cbn in Hs. subst s. exact Hpre.
Qed.

(** X10.  populate_array_pattern returns a list exactly when every
    segment 1..nr_segments can be read, and the list then holds the
    arrays of the segments in this order, one for each segment; the
    same holds of populate_array_pattern_multiband with an integer
    band. *)
Theorem populate_array_pattern_returns_iff
    (w : world) (stack_dir : string) (pair : option string)
    (pattern product_type pol : string) (nr_segments : nat) :
  (forall l,
      populate_array_pattern w stack_dir pair pattern product_type pol
        nr_segments = inr l <->
      Forall2 (fun s a => read_segment w stack_dir pair pattern product_type
                            pol s = inr a)
              (range nr_segments) l) /\
  (forall band l,
      populate_array_pattern_multiband w stack_dir pair pattern product_type
        band pol nr_segments = inr l <->
      Forall2 (fun s a => read_segment_band w stack_dir pair pattern
                            product_type band pol s = inr a)
              (range nr_segments) l).
Proof.
  split; intros; apply for_segments_iff.
Qed.

(** X11.  populate_array_pattern raises an exception exactly when the
    reading of some segment raises it after all earlier segments have
    been read: the first failure ends the loop, and no partial list is
    returned. *)
Theorem populate_array_pattern_raises_iff
    (w : world) (stack_dir : string) (pair : option string)
    (pattern product_type pol : string) (nr_segments : nat) (e : exn) :
  populate_array_pattern w stack_dir pair pattern product_type pol
    nr_segments = inl e <->
  exists s,
    (s < nr_segments)%nat /\
    (forall s', (s' < s)%nat ->
       exists a, read_segment w stack_dir pair pattern product_type pol s'
                 = inr a) /\
    read_segment w stack_dir pair pattern product_type pol s = inl e.
Proof.
  unfold populate_array_pattern. rewrite for_segments_failure. split.
  - intros (pre & s & post & H & Hpre & Hs).
    apply range_split_inv in H. destruct H as [Hlt ->].
    exists s. repeat split; auto.
    intros s' Hs'. rewrite Forall_forall in Hpre. apply Hpre.
    apply in_seq. lia.
  - intros (s & Hlt & Hpre & Hs).
    exists (range s), s, (seq (S s) (nr_segments - S s)).
    repeat split; auto using range_split.
    apply Forall_forall. intros s' Hin. apply in_seq in Hin.
    apply Hpre. lia.
Qed.

Lemma populate_array_pattern_raises_aux w stack_dir pair pattern product_type
    pol nr_segments e :
  (0 < nr_segments)%nat ->
  read_segment w stack_dir pair pattern product_type pol 0 = inl e ->
  populate_array_pattern w stack_dir pair pattern product_type pol
    nr_segments = inl e.
Proof.
  intros Hn H. unfold populate_array_pattern, range.
  destruct nr_segments as [|n]; [lia|]. cbn [seq for_segments].
  now rewrite H.
Qed.

(** X12.  With nr_segments = 0 populate_array_pattern returns the empty
    list whatever its other arguments.  With at least one segment, a
    product type other than i or g (up to case) raises
    UnboundLocalError, and the product type i without a pair raises
    TypeError. *)
Theorem populate_array_pattern_arguments
    (w : world) (stack_dir : string) (pair : option string)
    (pattern product_type pol : string) (nr_segments : nat) :
  (nr_segments = 0%nat ->
   populate_array_pattern w stack_dir pair pattern product_type pol
     nr_segments = inr []) /\
  ((0 < nr_segments)%nat ->
   lower product_type <> "i"%string -> lower product_type <> "g"%string ->
   populate_array_pattern w stack_dir pair pattern product_type pol
     nr_segments
   = inl (UnboundLocalError
            "local variable 'segment_path' referenced before assignment")) /\
  ((0 < nr_segments)%nat -> lower product_type = "i"%string -> pair = None ->
   populate_array_pattern w stack_dir pair pattern product_type pol
     nr_segments
   = inl (TypeError
            "expected str, bytes or os.PathLike object, not NoneType")).
Proof.
  split; [|split].
  - intros ->. reflexivity.
  - intros Hn Hi Hg. apply populate_array_pattern_raises_aux; auto.
    unfold read_segment, segment_path.
    destruct (String.eqb_spec (lower product_type) "i"); [contradiction|].
    destruct (String.eqb_spec (lower product_type) "g"); [contradiction|].
    reflexivity.
  - intros Hn Hi ->. apply populate_array_pattern_raises_aux; auto.
    unfold read_segment, segment_path. rewrite Hi. reflexivity.
Qed.

Lemma populate_array_pattern_arguments_witness :
  populate_array_pattern stack_coherent dir_stack None "hgt.rdr" "x" "hh" 4
  = inl (UnboundLocalError
           "local variable 'segment_path' referenced before assignment").
Proof.
  apply (proj1 (proj2 (populate_array_pattern_arguments stack_coherent
                         dir_stack None "hgt.rdr" "x" "hh" 4))).
  - lia.
  - discriminate.
  - discriminate.
Defined.


(** *** The rasters of a run *)

Local Close Scope Qc_scope.

Lemma written_app l1 l2 : written (l1 ++ l2) = written l1 ++ written l2.
Proof. apply flat_map_app. Qed.

Lemma writes_ret {A} (x : A) : writes_in_order (retM x) [].
Proof. intros log log' r [= <- <-]. now rewrite app_nil_r. Qed.

Lemma writes_bind {A B} (m : M A) (k : A -> M B) p1 p2 :
  writes_in_order m p1 -> (forall x, writes_in_order (k x) p2) ->
  writes_in_order (bindM m k) (p1 ++ p2).
Proof.
  intros Hm Hk log log' r. unfold bindM.
  destruct (m log) as [log1 [e|x]] eqn:E.
  - intros [= <- <-]. apply Hm in E. destruct E as (j & Hj & ->).
    exists j. split; [rewrite length_app; lia|].
    rewrite firstn_app. replace (j - length p1)%nat with 0%nat by lia.
    now rewrite firstn_O, app_nil_r.
  - intros H. apply Hm in E. apply Hk in H. destruct r as [e|y].
    + destruct H as (j & Hj & ->). exists (length p1 + j)%nat.
      split; [rewrite length_app; lia|].
      rewrite E, firstn_app.
      replace (length p1 + j - length p1)%nat with j by lia.
      rewrite (@firstn_all2 _ (length p1 + j) p1) by lia.
      now rewrite app_assoc.
    + now rewrite H, E, app_assoc.
Qed.

Lemma writes_for_each {A} (l : list A) (body : A -> M unit) f :
  (forall x, writes_in_order (body x) (f x)) ->
  writes_in_order (for_each l body) (flat_map f l).
Proof.
  intros Hb. induction l as [|x l IH]; cbn [for_each flat_map].
  - apply writes_ret.
  - apply writes_bind; auto.
Qed.

(** A call of the writer, and a step that is a pure computation
    followed by a call of the writer, write their path or nothing. *)
Lemma writes_write float32 outfile arr dtype scheme :
  writes_in_order (write_isce_image float32 outfile arr dtype scheme)
                  [outfile].
Proof.
  intros log log' r. rewrite write_isce_image_run.
  destruct (prepare_output float32 arr scheme) as [e|[[[b l] wd] out]];
    [|destruct (String.eqb (dirname outfile) "")].
  - intros [= <- <-]. exists 0%nat. cbn. split; [lia | now rewrite app_nil_r].
  - intros [= <- <-]. exists 0%nat. cbn. split; [lia | now rewrite app_nil_r].
  - intros [= <- <-]. now rewrite written_app.
Qed.

Lemma writes_failure {A} (e : exn) p :
  p <> [] -> writes_in_order (fun log => (log, @inl exn A e)) p.
Proof.
  intros Hp log log' r [= <- <-]. exists 0%nat.
  split; [destruct p; [contradiction | cbn; lia]|].
  now rewrite firstn_O, app_nil_r.
Qed.

Lemma writes_ext {A} (m m' : M A) p :
  (forall log, m log = m' log) -> writes_in_order m' p -> writes_in_order m p.
Proof. intros E H log log' r. rewrite E. apply H. Qed.

Lemma writes_geometry float32 w pol output_dir name :
  writes_in_order (geometry_product float32 w pol output_dir name)
    [path_join_all output_dir ["geom_reference"%string; name]].
Proof.
  intros log log' r. rewrite geometry_product_run.
  destruct (populate_array_pattern _ _ _ _ _ _ _);
    [apply writes_failure; discriminate|].
  destruct (vstack _); [apply writes_failure; discriminate|].
  apply writes_write.
Qed.

Lemma writes_los float32 w output_dir :
  writes_in_order (los_product float32 w output_dir)
    [path_join_all output_dir ["geom_reference"; "los.rdr"]%string].
Proof.
  intros log log' r. rewrite los_product_run.
  destruct (populate_array_pattern_multiband_list _ _ _ _ _ _ _ _);
    [apply writes_failure; discriminate|].
  destruct (concatenate_axis1 _); [apply writes_failure; discriminate|].
  apply writes_write.
Qed.

Lemma writes_cor float32 output_dir pair coh_list :
  writes_in_order (cor_product float32 output_dir pair coh_list)
    [path_join_all output_dir
       ["Igrams"; pair; "filt_" ++ pair ++ ".cor"]%string].
Proof.
  intros log log' r. rewrite cor_product_run.
  destruct (vstack _); [apply writes_failure; discriminate|].
  apply writes_write.
Qed.

Lemma writes_conncomp float32 w pol output_dir pair :
  writes_in_order (conncomp_product float32 w pol output_dir pair)
    [path_join_all output_dir
       ["Igrams"; pair; "filt_" ++ pair ++ "_snaphu.unw.conncomp"]%string].
Proof.
  intros log log' r. rewrite conncomp_product_run.
  destruct (populate_array_pattern _ _ _ _ _ _ _);
    [apply writes_failure; discriminate|].
  destruct (vstack _); [apply writes_failure; discriminate|].
  apply writes_write.
Qed.

Lemma writes_unw float32 w pol output_dir pair :
  writes_in_order (unw_product float32 w pol output_dir pair)
    [path_join_all output_dir
       ["Igrams"; pair; "filt_" ++ pair ++ "_snaphu.unw"]%string].
Proof.
  intros log log' r. rewrite unw_product_run.
  destruct (unw_array w pol pair) as [e|[twoband coh]];
    [apply writes_failure; discriminate|].
  destruct (write_isce_image _ _ _ _ _ _) as [log1 [e|u]] eqn:Ew;
    intros [= <- <-]; apply writes_write in Ew; exact Ew.
Qed.

Lemma writes_pair float32 w pol output_dir pair :
  writes_in_order (pair_body float32 w pol output_dir pair)
                  (pair_outputs output_dir pair).
Proof.
  unfold pair_body.
  unfold pair_outputs.
  apply (@writes_bind _ _ _ _ (_ :: nil) (_ :: _ :: nil)); [apply writes_unw|].
  intros coh_list.
  apply (@writes_bind _ _ _ _ (_ :: nil) (_ :: nil)); [apply writes_cor|].
  intros _. apply writes_conncomp.
Qed.

Lemma writes_pol float32 w pol :
  writes_in_order (pol_body float32 w pol) (pol_outputs pol).
Proof.
  unfold pol_body, pol_outputs, geometry_outputs. cbn [map].
  do 4 (apply (@writes_bind _ _ _ _ (_ :: nil)); [apply writes_geometry | intros _]).
  apply (@writes_bind _ _ _ _ (_ :: nil)); [apply writes_los | intros _].
  apply writes_for_each. intros pair. apply writes_pair.
Qed.

(** X13.  A run of the script that returns has written the 42 rasters
    of expected_outputs in this order: for each polarisation the five
    geometry layers, then for each pair the phase, the coherence and
    the connected components.  A run that raises has written a proper
    initial part of them.  The 42 paths are distinct: no raster is
    written twice. *)
Theorem main_writes_expected_outputs
    (float32 : scalar -> scalar) (w : world) (log log' : list event)
    (r : result unit) :
  main float32 w log = (log', r) ->
  match r with
  | inr _ => written log' = written log ++ expected_outputs
  | inl _ => exists k, (k < 42)%nat /\
                       written log' = written log ++ firstn k expected_outputs
  end /\
  length expected_outputs = 42%nat /\ NoDup expected_outputs.
Proof.
  intros H. split; [|split].
  - assert (Hm : writes_in_order (main float32 w) expected_outputs).
    { unfold main, expected_outputs. apply writes_for_each.
      intros pol. apply writes_pol. }
    apply Hm in H. exact H.
  - reflexivity.
  - assert (E : nodup string_dec expected_outputs = expected_outputs)
      by (vm_compute; reflexivity).
    rewrite <- E. apply NoDup_nodup.
Qed.

Lemma main_writes_expected_outputs_witness :
  (exists k, (k < 42)%nat /\
             written (fst (main exact_cast stack_incoherent []))
             = written [] ++ firstn k expected_outputs) /\
  length expected_outputs = 42%nat /\ NoDup expected_outputs.
Proof.
  apply (@main_writes_expected_outputs exact_cast stack_incoherent []
           (fst (main exact_cast stack_incoherent []))
           (inl (ValueError "cannot convert float NaN to integer"))).
  vm_compute. reflexivity.
Defined.

End Extras.
